(** * StatCan grocery processor: a shallow embedding of
      [process_statscan_to_json.py] and the properties of its row pipeline.

    Python [str] values are modelled as lists of characters.  The development
    covers strings made of the code points 0..127 ([ascii_only]): the
    character predicates and case mappings below are the ones Python's [re]
    and [str] methods use on that range.  Above it Python applies the
    Unicode tables (more letters and white space, case mappings that change
    the length of a string), which are not modelled: a property that would
    not hold there is stated for [ascii_only] strings.

    Python [float] values are IEEE 754 binary64 numbers, modelled with the
    Standard Library's [spec_float] at precision 53 and maximal exponent
    1024. *)

From Stdlib Require Import Ascii String.
From Stdlib Require Import Bool Arith List ZArith Lia.
From Stdlib Require Import Permutation Sorted.
From Stdlib Require Import Floats.SpecFloat.
Import ListNotations.

Local Open Scope list_scope.

(** ** Characters and Python string methods *)

Definition pystr := list ascii.

Definition str (s : string) : pystr := list_ascii_of_string s.

Definition code (c : ascii) : nat := nat_of_ascii c.

Definition in_range (lo hi : nat) (c : ascii) : bool :=
  (lo <=? code c) && (code c <=? hi).

Definition is_digit (c : ascii) : bool := in_range 48 57 c.
Definition is_upper (c : ascii) : bool := in_range 65 90 c.
Definition is_lower (c : ascii) : bool := in_range 97 122 c.
Definition is_alpha (c : ascii) : bool := is_upper c || is_lower c.

(** The code points 0..127, and the strings made of them *)
Definition is_ascii (c : ascii) : bool := code c <? 128.

Definition ascii_only (s : pystr) : bool := forallb is_ascii s.

(** [\w] on the code points 0..127: letters, digits and the underscore. *)
Definition is_word (c : ascii) : bool :=
  is_alpha c || is_digit c || (code c =? 95).

(** [\s] and [str.isspace] on the code points 0..127: tab, newline,
    vertical tab, form feed, carriage return, the four separators 28..31
    and the space. *)
Definition is_space (c : ascii) : bool :=
  in_range 9 13 c || in_range 28 31 c || (code c =? 32).

(** The case mappings of the code points 0..127 *)
Definition lower_char (c : ascii) : ascii :=
  if is_upper c then ascii_of_nat (code c + 32) else c.

Definition upper_char (c : ascii) : ascii :=
  if is_lower c then ascii_of_nat (code c - 32) else c.

(** [str.lower] on an [ascii_only] string *)
Definition lower (s : pystr) : pystr := map lower_char s.

(** [str.title] on an [ascii_only] string: a letter that follows a letter
    is lower-cased, any other letter is upper-cased. *)
Fixpoint title_from (prev_cased : bool) (s : pystr) : pystr :=
  match s with
  | [] => []
  | c :: s' =>
      (if prev_cased then lower_char c else upper_char c)
        :: title_from (is_alpha c) s'
  end.

Definition title (s : pystr) : pystr := title_from false s.

(** [str.strip] without argument *)
Fixpoint lstrip (s : pystr) : pystr :=
  match s with
  | c :: s' => if is_space c then lstrip s' else s
  | [] => []
  end.

Definition rstrip (s : pystr) : pystr := rev (lstrip (rev s)).

Definition strip (s : pystr) : pystr := rstrip (lstrip s).

(** [str.split(sep)] for a one-character separator *)
Fixpoint split_on (sep : ascii) (s : pystr) : list pystr :=
  match s with
  | [] => [[]]
  | c :: s' =>
      if Ascii.eqb c sep then [] :: split_on sep s'
      else match split_on sep s' with
           | p :: ps => (c :: p) :: ps
           | [] => [[c]]
           end
  end.

Definition pystr_eqb (a b : pystr) : bool :=
  if list_eq_dec ascii_dec a b then true else false.

(** [str.startswith] *)
Fixpoint startswith (s p : pystr) : bool :=
  match p, s with
  | [], _ => true
  | c :: p', d :: s' => Ascii.eqb c d && startswith s' p'
  | _ :: _, [] => false
  end.

(** [p in s] for strings *)
Fixpoint contains (s p : pystr) : bool :=
  startswith s p ||
  match s with
  | [] => false
  | _ :: s' => contains s' p
  end.

(** ** A backtracking matcher for the [re] patterns of the program *)

Inductive cclass :=
| CLit (c : ascii)      (* a literal character *)
| CDigit                (* \d *)
| CSpace                (* \s *)
| CAny                  (* .  : anything but a newline *)
| CNotWordSpace.        (* [^\w\s] *)

Inductive regex :=
| Emp
| Chr (c : cclass)
| Seq (a b : regex)
| Alt (a b : regex)
| Opt (a : regex)            (* a?  greedy *)
| Star (c : cclass)          (* c*  greedy *)
| StarLazy (c : cclass)      (* c*? *)
| Grp (n : nat) (a : regex)  (* capturing group number n *)
| Wordb                      (* \b *)
| Bol                        (* ^ *)
| Eol.                       (* $ *)

Definition newline : ascii := ascii_of_nat 10.

Section Matcher.

(** [re.IGNORECASE] *)
Variable icase : bool.

Definition cmatch (cl : cclass) (x : ascii) : bool :=
  match cl with
  | CLit c =>
      if icase then Ascii.eqb (lower_char x) (lower_char c) else Ascii.eqb x c
  | CDigit => is_digit x
  | CSpace => is_space x
  | CAny => negb (Ascii.eqb x newline)
  | CNotWordSpace => negb (is_word x || is_space x)
  end.

(** A position in the subject: the character before it, the text from it on,
    and the groups captured so far (latest first). *)
Record mstate := MState {
  prev : option ascii;
  rest : pystr;
  caps : list (nat * pystr)
}.

Definition word_opt (o : option ascii) : bool :=
  match o with Some c => is_word c | None => false end.

Definition at_boundary (st : mstate) : bool :=
  xorb (word_opt (prev st)) (word_opt (hd_error (rest st))).

Definition at_eol (st : mstate) : bool :=
  match rest st with
  | [] => true
  | [c] => Ascii.eqb c newline
  | _ => false
  end.

Definition consumed (st st' : mstate) : pystr :=
  firstn (length (rest st) - length (rest st')) (rest st).

Definition set_cap (n : nat) (t : pystr) (st : mstate) : mstate :=
  MState (prev st) (rest st) ((n, t) :: caps st).

(** Backtracking: the second branch runs only when the first one fails. *)
Notation "x 'orelse' y" :=
  (match x with Some v => Some v | None => y end)
  (at level 60, right associativity, only parsing).

Fixpoint star_greedy (cl : cclass) (k : mstate -> option mstate)
    (pv : option ascii) (l : pystr) (cs : list (nat * pystr)) : option mstate :=
  match l with
  | x :: l' =>
      if cmatch cl x
      then star_greedy cl k (Some x) l' cs orelse k (MState pv l cs)
      else k (MState pv l cs)
  | [] => k (MState pv l cs)
  end.

Fixpoint star_lazy (cl : cclass) (k : mstate -> option mstate)
    (pv : option ascii) (l : pystr) (cs : list (nat * pystr)) : option mstate :=
  k (MState pv l cs) orelse
    match l with
    | x :: l' => if cmatch cl x then star_lazy cl k (Some x) l' cs else None
    | [] => None
    end.

(** [run r k st]: match [r] at [st] and hand the end position to the
    continuation [k]; alternatives are tried in the order [re] tries them. *)
Fixpoint run (r : regex) (k : mstate -> option mstate) (st : mstate)
    : option mstate :=
  match r with
  | Emp => k st
  | Chr cl =>
      match rest st with
      | x :: l => if cmatch cl x then k (MState (Some x) l (caps st)) else None
      | [] => None
      end
  | Seq a b => run a (run b k) st
  | Alt a b => run a k st orelse run b k st
  | Opt a => run a k st orelse k st
  | Star cl => star_greedy cl k (prev st) (rest st) (caps st)
  | StarLazy cl => star_lazy cl k (prev st) (rest st) (caps st)
  | Grp n a => run a (fun st' => k (set_cap n (consumed st st') st')) st
  | Wordb => if at_boundary st then k st else None
  | Bol => match prev st with None => k st | Some _ => None end
  | Eol => if at_eol st then k st else None
  end.

(** A match that starts at the position given by [pv] and [l] *)
Definition match_at (r : regex) (pv : option ascii) (l : pystr) : option mstate :=
  run r (fun st => Some st) (MState pv l []).

(** [re.match]: anchored at the start of the string *)
Definition re_match (r : regex) (s : pystr) : option mstate :=
  match_at r None s.

(** The leftmost match from a position on: the text skipped before it and
    the state at its end, which together stand for the match object *)
Fixpoint search_from (r : regex) (pv : option ascii) (l : pystr)
    : option (pystr * mstate) :=
  match match_at r pv l with
  | Some st => Some ([], st)
  | None =>
      match l with
      | [] => None
      | c :: l' =>
          match search_from r (Some c) l' with
          | Some (pre, st) => Some (c :: pre, st)
          | None => None
          end
      end
  end.

(** [re.search]: the leftmost match *)
Definition re_search (r : regex) (s : pystr) : option (pystr * mstate) :=
  search_from r None s.

(** [m.group(n)] *)
Fixpoint assoc (n : nat) (cs : list (nat * pystr)) : option pystr :=
  match cs with
  | [] => None
  | (m, t) :: cs' => if Nat.eqb m n then Some t else assoc n cs'
  end.

Definition group (n : nat) (m : pystr * mstate) : option pystr :=
  assoc n (caps (snd m)).

(** [re.sub(r, repl, s)]: [skip] counts the characters of the current match
    that are still to be dropped. *)
Fixpoint sub_from (r : regex) (repl : pystr) (skip : nat)
    (pv : option ascii) (l : pystr) {struct l} : pystr :=
  match skip with
  | S n =>
      match l with
      | c :: l' => sub_from r repl n (Some c) l'
      | [] => []
      end
  | O =>
      match match_at r pv l with
      | Some st =>
          repl ++
          match length l - length (rest st), l with
          | S n, c :: l' => sub_from r repl n (Some c) l'
          | O, c :: l' => c :: sub_from r repl 0 (Some c) l'
          | _, [] => []
          end
      | None =>
          match l with
          | c :: l' => c :: sub_from r repl 0 (Some c) l'
          | [] => []
          end
      end
  end.

Definition re_sub (r : regex) (repl s : pystr) : pystr :=
  sub_from r repl 0 None s.

End Matcher.

(** Pattern building blocks *)

Fixpoint lit (s : pystr) : regex :=
  match s with
  | [] => Emp
  | [c] => Chr (CLit c)
  | c :: s' => Seq (Chr (CLit c)) (lit s')
  end.

Definition word (s : string) : regex := lit (str s).

Definition plus (c : cclass) : regex := Seq (Chr c) (Star c).

Fixpoint alts (rs : list regex) : regex :=
  match rs with
  | [] => Emp
  | [r] => r
  | r :: rs' => Alt r (alts rs')
  end.

Fixpoint seqs (rs : list regex) : regex :=
  match rs with
  | [] => Emp
  | [r] => r
  | r :: rs' => Seq r (seqs rs')
  end.

(** ** The patterns of [StatCanJSONProcessor] *)

(** A literal character, written as a one-character string *)
Definition ch (s : string) : cclass :=
  match s with
  | String c _ => CLit c
  | EmptyString => CAny
  end.

(** [per\s+(kilogram|kg|gram|g|litre|l|ml|millilitre)s?\b] *)
Definition PER_UNIT_EXPR : regex :=
  seqs [ word "per"; plus CSpace;
         Grp 1 (alts [ word "kilogram"; word "kg"; word "gram"; word "g";
                       word "litre"; word "l"; word "ml"; word "millilitre" ]);
         Opt (Chr (ch "s")); Wordb ].

(** [\b(\d+(\.\d+)?)\s*(kg|kilogram(s)?|g|gram(s)?|l|litre(s)?|ml|millilitre(s)?)\b];
    [b] is the number of groups opened before the pattern. *)
Definition PACKAGE_SIZE_EXPR_at (b : nat) : regex :=
  seqs [ Wordb;
         Grp (b + 1)
           (Seq (plus CDigit)
                (Opt (Grp (b + 2) (Seq (Chr (ch ".")) (plus CDigit)))));
         Star CSpace;
         Grp (b + 3)
           (alts [ word "kg";
                   Seq (word "kilogram") (Opt (Grp (b + 4) (word "s")));
                   word "g";
                   Seq (word "gram") (Opt (Grp (b + 5) (word "s")));
                   word "l";
                   Seq (word "litre") (Opt (Grp (b + 6) (word "s")));
                   word "ml";
                   Seq (word "millilitre") (Opt (Grp (b + 7) (word "s"))) ]);
         Wordb ].

Definition PACKAGE_SIZE_EXPR : regex := PACKAGE_SIZE_EXPR_at 0.

(** [,?\s*per\b.*$] *)
Definition PER_EXPR : regex :=
  seqs [ Opt (Chr (ch ",")); Star CSpace; word "per"; Wordb; Star CAny; Eol ].

(** [\b\d+\s*(dozen|bags?|packs?|items?)\b] *)
Definition QUANTITY_EXPR_at (b : nat) : regex :=
  seqs [ Wordb; plus CDigit; Star CSpace;
         Grp (b + 1)
           (alts [ word "dozen";
                   Seq (word "bag") (Opt (Chr (ch "s")));
                   Seq (word "pack") (Opt (Chr (ch "s")));
                   Seq (word "item") (Opt (Chr (ch "s"))) ]);
         Wordb ].

(** [\b(kilo)?gram(s)?\b|\b(litre|litres|liter|liters)\b|\bunit\b] *)
Definition UNIT_GARBAGE_at (b : nat) : regex :=
  alts [ seqs [ Wordb; Opt (Grp (b + 1) (word "kilo")); word "gram";
                Opt (Grp (b + 2) (word "s")); Wordb ];
         seqs [ Wordb;
                Grp (b + 3) (alts [ word "litre"; word "litres";
                                    word "liter"; word "liters" ]);
                Wordb ];
         seqs [ Wordb; word "unit"; Wordb ] ].

(** [(PACKAGE_SIZE_EXPR)|(QUANTITY_EXPR)|(UNIT_GARBAGE)] *)
Definition clean_regex : regex :=
  alts [ Grp 1 (PACKAGE_SIZE_EXPR_at 1);
         Grp 9 (QUANTITY_EXPR_at 9);
         Grp 11 (UNIT_GARBAGE_at 11) ].

(** [\(.*?\)] *)
Definition PAREN_EXPR : regex :=
  seqs [ Chr (ch "("); StarLazy CAny; Chr (ch ")") ].

(** [[^\w\s]] *)
Definition SPECIAL_EXPR : regex := Chr CNotWordSpace.

(** [\s{2,}] *)
Definition SPACES_EXPR : regex := seqs [ Chr CSpace; Chr CSpace; Star CSpace ].

(** [^\d{4}-\d{2}$] *)
Definition DATE_EXPR : regex :=
  seqs [ Bol; Chr CDigit; Chr CDigit; Chr CDigit; Chr CDigit; Chr (ch "-");
         Chr CDigit; Chr CDigit; Eol ].

(** [rf"\b{re.escape(keyword)}\b"]: the keywords are made of letters and
    spaces, which [re.escape] leaves as literals. *)
Definition keyword_regex (keyword : pystr) : regex :=
  seqs [ Wordb; lit keyword; Wordb ].

(** ** Python floats *)

Module Float.

Definition prec : Z := 53.
Definition emax : Z := 1024.

Definition float := spec_float.

Definition of_Z (z : Z) : float := binary_normalize prec emax z 0 false.

Definition one : float := of_Z 1.
Definition zero : float := S754_zero false.

Definition div (x y : float) : float := SFdiv prec emax x y.
Definition mul (x y : float) : float := SFmul prec emax x y.
Definition ltb (x y : float) : bool := SFltb x y.
Definition leb (x y : float) : bool := SFleb x y.

(** [x > 0] and [x <= 0] as Python evaluates them (both false on NaN) *)
Definition gt0 (x : float) : bool := ltb zero x.
Definition le0 (x : float) : bool := leb x zero.

Definition digit_val (c : ascii) : Z := Z.of_nat (code c - 48).

Definition digits_val (ds : pystr) : Z :=
  fold_left (fun acc c => (10 * acc + digit_val c)%Z) ds 0%Z.

(** The correctly rounded quotient of two non-negative integers. *)
Definition of_ratio (n d : Z) : float :=
  match n, d with
  | Zpos pn, Zpos pd =>
      SFdiv prec emax (S754_finite false pn 0) (S754_finite false pd 0)
  | _, _ => zero
  end.

Definition all_digits (ds : pystr) : bool :=
  match ds with [] => false | _ => forallb is_digit ds end.

(** [float(s)] for a literal of the form [digits] or [digits.digits], the
    only form the program passes to it; [None] stands for any other
    argument. *)
Definition pyfloat (s : pystr) : option float :=
  match split_on "." s with
  | [i] =>
      if all_digits i then Some (of_ratio (digits_val i) 1) else None
  | [i; f] =>
      if all_digits i && all_digits f
      then Some (of_ratio (digits_val (i ++ f)) (10 ^ Z.of_nat (length f)))
      else None
  | _ => None
  end.

(** Round to the nearest integer, ties to even ([rint]). *)
Definition rint (x : float) : float :=
  match x with
  | S754_finite s m e =>
      if (0 <=? e)%Z then x
      else
        let d := (2 ^ (- e))%Z in
        let q := (Zpos m / d)%Z in
        let r := (Zpos m mod d)%Z in
        let q' := match (2 * r ?= d)%Z with
                  | Lt => q
                  | Gt => (q + 1)%Z
                  | Eq => if Z.even q then q else (q + 1)%Z
                  end in
        if (q' =? 0)%Z then S754_zero s
        else binary_normalize prec emax (if s then (- q')%Z else q') 0 s
  | _ => x
  end.

(** [Series.round(2)]: scale by 100, round to an integer, scale back. *)
Definition round2 (x : float) : float :=
  div (rint (mul x (of_Z 100))) (of_Z 100).


End Float.

Import Float.

(** ** The processor *)

Notation "x <- e ;; k" :=
  (match e with Some x => k | None => None end)
  (at level 61, e at next level, right associativity, only parsing).

(** [x in (a, b)] *)
Definition in_tuple (x : pystr) (t : list pystr) : bool :=
  existsb (pystr_eqb x) t.

(** [_extract_weight_and_unit] is written here as its two branches and the
    test that selects one; [None] stands for a raised exception. *)

(** The branch taken when [per_unit_regex.search(text)] finds a match *)
Definition per_unit_branch (per_match : pystr * mstate)
    : option (float * pystr) :=
  g1 <- group 1 per_match ;;
  let unit_text := lower g1 in
  if in_tuple unit_text [str "kilogram"; str "kg"] then
    Some (one, str "kg")
  else if in_tuple unit_text [str "gram"; str "g"] then
    Some (one, str "kg")
  else if in_tuple unit_text [str "litre"; str "l"] then
    Some (one, str "L")
  else if in_tuple unit_text [str "ml"; str "millilitre"] then
    Some (one, str "L")
  else
    Some (one, str "kg").

(** The conversion applied to a package-size match *)
Definition package_convert (value : float) (unit : pystr) : float * pystr :=
  if pystr_eqb unit (str "g")
     || (startswith unit (str "gram")
         && negb (startswith unit (str "kilogram"))) then
    (div value (of_Z 1000), str "kg")
  else if contains unit (str "ml") || startswith unit (str "millilitre") then
    (div value (of_Z 1000), str "L")
  else if pystr_eqb unit (str "l") || startswith unit (str "litre") then
    (value, str "L")
  else
    (value, str "kg").

(** The rest of the function, reached when there is no per-unit match *)
Definition package_branch (text : pystr) : option (float * pystr) :=
  match re_search true PACKAGE_SIZE_EXPR text with
  | Some package_match =>
      g1 <- group 1 package_match ;;
      value <- pyfloat g1 ;;
      g3 <- group 3 package_match ;;
      Some (package_convert value (lower g3))
  | None => Some (one, str "unit")
  end.

Definition _extract_weight_and_unit (text : pystr) : option (float * pystr) :=
  match re_search true PER_UNIT_EXPR text with
  | Some per_match => per_unit_branch per_match
  | None => package_branch text
  end.

(** [_clean_product_name] *)
Definition _clean_product_name (text : pystr) : pystr :=
  let text := re_sub true PER_EXPR [] text in
  let text := re_sub true clean_regex [] text in
  let text := re_sub false PAREN_EXPR [] text in
  let text := re_sub false SPECIAL_EXPR [] text in
  let text := re_sub false SPACES_EXPR (str " ") text in
  title (strip text).

Definition CATEGORY_KEYWORDS : list (pystr * list pystr) :=
  map (fun p => (str (fst p), map str (snd p)))
  [ ("vegetable",
      ["potato"; "sweet potato"; "tomato"; "carrot"; "onion";
       "celery"; "cucumber"; "iceberg lettuce"; "romaine lettuce";
       "broccoli"; "bell pepper"; "lemon"; "lime"; "avocado";
       "cabbage"; "mushroom"; "squash"; "green salad"]);
    ("fruit",
      ["cantaloupe"; "apple"; "orange"; "banana"; "pear";
       "grape"; "strawberry"]);
    ("dairy_and_egg",
      ["cow milk"; "soy milk"; "nut milk"; "whole cream"; "butter";
       "block cheese"; "yogurt"; "egg"]);
    ("pork", ["pork loin"; "pork"; "bacon"]);
    ("beef",
      ["beef stewing"; "beef striploin"; "beef top sirloin";
       "beef rib"; "ground beef"; "beef"]);
    ("poultry",
      ["whole chicken"; "chicken breast"; "chicken thigh";
       "chicken drumsticks"; "chicken"]);
    ("plant_based_protein", ["tofu"]);
    ("carbs",
      ["dry pasta"; "fresh pasta"; "pasta"; "brown rice"; "white rice";
       "white bread"; "flatbread"; "pita"; "crackers"; "crisp bread"]);
    ("seafood", ["salmon"; "shrimp"; "tuna"]);
    ("nuts_and_dry_beans",
      ["peanut"; "almond"; "sunflower seed"; "dried lentils";
       "dry bean"; "legume"; "bean"]);
    ("seasoning",
      ["ketchup"; "mayonnaise"; "salad dressing"; "white sugar";
       "brown sugar"]);
    ("baby_items", ["baby food"; "infant formula"]);
    ("frozen_food",
      ["frozen french fries"; "frozen broccoli"; "frozen green bean";
       "frozen corn"; "frozen mixed vegetable"; "frozen pea";
       "frozen pizza"; "frozen spinach"; "frozen strawberry"]);
    ("deli", ["wiener"; "meatless burger"; "hummus"; "salsa"]);
    ("canned_food",
      ["canned tomato"; "canned baked bean"; "canned soup";
       "canned bean"; "canned lentil"; "canned corn";
       "canned peach"; "canned pear"; "canned salmon"; "canned tuna"]);
    ("snacks", ["cookie"; "cookies"; "sweet biscuit"; "biscuit"]);
    ("baking_ingredients", ["wheat flour"; "wheet flour"; "flour"]);
    ("personal_care",
      ["deodorant"; "toothpaste"; "tooth paste"; "shampoo"; "conditioner"]);
    ("household_supply", ["laundry detergent"]);
    ("drink",
      ["apple juice"; "roasted coffee"; "ground coffee"; "coffee"; "tea"]);
    ("pantry_item", ["peanut butter"; "pasta sauce"; "cereal"]);
    ("oil", ["margarine"; "vegetable oil"; "canola oil"; "olive oil"])
  ]%string.

(** [re.search(rf"\b{re.escape(keyword)}\b", name_lower)] as a condition *)
Definition keyword_found (name_lower keyword : pystr) : bool :=
  match re_search false (keyword_regex keyword) name_lower with
  | Some _ => true
  | None => false
  end.

(** The two nested loops of [_infer_category] over a keyword table *)
Fixpoint infer_in (table : list (pystr * list pystr)) (name_lower : pystr)
    : pystr :=
  match table with
  | [] => str "other"
  | (category, keywords) :: table' =>
      if existsb (keyword_found name_lower) keywords then category
      else infer_in table' name_lower
  end.

Definition _infer_category (name : pystr) : pystr :=
  infer_in CATEGORY_KEYWORDS (lower name).

(** [_parse_location] *)
Definition _parse_location (location : pystr) : pystr * pystr :=
  match map strip (split_on "," location) with
  | p0 :: p1 :: _ => (p0, p1)
  | _ => ([], location)
  end.

(** [_format_date] *)
Definition _format_date (date_str : pystr) : pystr :=
  let date_str := strip date_str in
  match re_match false DATE_EXPR date_str with
  | Some _ => date_str ++ str "-01"
  | None => date_str
  end.

(** A row of the input table, with the columns [transform] reads. *)
Record RawRow := {
  REF_DATE : pystr;
  GEO : pystr;
  Products : pystr;
  VALUE : float
}.

(** A row of the table [transform] returns. *)
Record Row := {
  date : pystr;
  location : pystr;
  product_raw : pystr;
  product_price : float;
  is_per_unit : bool;
  product_weight : float;
  product_unit : pystr;
  product_name : pystr;
  product_category : pystr;
  price_per_unit : float;
  city : pystr;
  province : pystr
}.

(** [Series.str.contains(PER_UNIT_EXPR, regex=True, case=False)] on one
    value *)
Definition str_contains_per_unit (s : pystr) : bool :=
  match re_search true PER_UNIT_EXPR s with
  | Some _ => true
  | None => false
  end.

(** The price lambda of [transform], before rounding *)
Definition normalize_price (price : float) (per_unit : bool) (weight : float)
    : float :=
  if per_unit then price
  else if gt0 weight then div price weight
  else price.

(** The column assignments of [transform] on one row *)
Definition transform_row (r : RawRow) : option Row :=
  let date := _format_date (REF_DATE r) in
  let per_unit := str_contains_per_unit (Products r) in
  wu <- _extract_weight_and_unit (Products r) ;;
  let name := _clean_product_name (Products r) in
  let category := _infer_category name in
  let ppu := round2 (normalize_price (VALUE r) per_unit (fst wu)) in
  let location := title (strip (GEO r)) in
  let cp := _parse_location location in
  Some {| date := date; location := location; product_raw := Products r;
          product_price := VALUE r; is_per_unit := per_unit;
          product_weight := fst wu; product_unit := snd wu;
          product_name := name; product_category := category;
          price_per_unit := ppu; city := fst cp; province := snd cp |}.

(** The column assignments on a table whose first row is [r] and whose
    other rows are [df] *)
Fixpoint map_rows (r : RawRow) (df : list RawRow) {struct df}
    : option (list Row) :=
  row <- transform_row r ;;
  match df with
  | [] => Some [row]
  | r' :: df' =>
      rows <- map_rows r' df' ;;
      Some (row :: rows)
  end.

(** [transform]: the derived columns, then [df[df["price_per_unit"] > 0]].
    On a table without rows the assignment of the two columns
    [product_weight] and [product_unit] raises [ValueError], since [apply]
    on an empty column gives no two-column frame: the result is [None]. *)
Definition transform (df : list RawRow) : option (list Row) :=
  match df with
  | [] => None
  | r :: df' =>
      rows <- map_rows r df' ;;
      Some (filter (fun row => gt0 (price_per_unit row)) rows)
  end.

(** An entry of the [prices] list of the output document *)
Record PriceRecord := {
  pr_date : pystr;
  pr_product_name : pystr;
  pr_product_category : pystr;
  pr_price_per_unit : float;
  pr_product_unit : pystr;
  pr_location : pystr;
  pr_city : pystr;
  pr_province : pystr
}.

Definition price_record (row : Row) : PriceRecord :=
  {| pr_date := date row; pr_product_name := product_name row;
     pr_product_category := product_category row;
     pr_price_per_unit := price_per_unit row;
     pr_product_unit := product_unit row; pr_location := location row;
     pr_city := city row; pr_province := province row |}.

(** The part of [create_json_structure] that builds the price records and
    counts them *)
Record Document := {
  total_records : nat;
  prices : list PriceRecord
}.

Definition create_json_structure (df : list Row) : Document :=
  let price_records := map price_record df in
  {| total_records := length price_records; prices := price_records |}.

(** [transform] followed by [create_json_structure], as [process] runs them *)
Definition process (df : list RawRow) : option Document :=
  df_transformed <- transform df ;;
  Some (create_json_structure df_transformed).

(** ** Declarative reading of the patterns *)

Section Semantics.

Variable icase : bool.

(** [Matches r st st']: [r] can match from position [st] to position [st']. *)
Inductive Matches : regex -> mstate -> mstate -> Prop :=
| M_Emp st : Matches Emp st st
| M_Chr cl x l pv cs :
    cmatch icase cl x = true ->
    Matches (Chr cl) (MState pv (x :: l) cs) (MState (Some x) l cs)
| M_Seq a b s1 s2 s3 :
    Matches a s1 s2 -> Matches b s2 s3 -> Matches (Seq a b) s1 s3
| M_AltL a b s1 s2 : Matches a s1 s2 -> Matches (Alt a b) s1 s2
| M_AltR a b s1 s2 : Matches b s1 s2 -> Matches (Alt a b) s1 s2
| M_OptSome a s1 s2 : Matches a s1 s2 -> Matches (Opt a) s1 s2
| M_OptNone a s1 : Matches (Opt a) s1 s1
| M_StarNil cl st : Matches (Star cl) st st
| M_StarCons cl x l pv cs st' :
    cmatch icase cl x = true ->
    Matches (Star cl) (MState (Some x) l cs) st' ->
    Matches (Star cl) (MState pv (x :: l) cs) st'
| M_LazyNil cl st : Matches (StarLazy cl) st st
| M_LazyCons cl x l pv cs st' :
    cmatch icase cl x = true ->
    Matches (StarLazy cl) (MState (Some x) l cs) st' ->
    Matches (StarLazy cl) (MState pv (x :: l) cs) st'
| M_Grp n a s1 s2 :
    Matches a s1 s2 -> Matches (Grp n a) s1 (set_cap n (consumed s1 s2) s2)
| M_Wordb st : at_boundary st = true -> Matches Wordb st st
| M_Bol st : prev st = None -> Matches Bol st st
| M_Eol st : at_eol st = true -> Matches Eol st st.

(** The texts a pattern can consume, position tests left aside. *)
Fixpoint lang (r : regex) (w : pystr) : Prop :=
  match r with
  | Emp | Wordb | Bol | Eol => w = []
  | Chr cl => exists x, w = [x] /\ cmatch icase cl x = true
  | Seq a b => exists u v, w = u ++ v /\ lang a u /\ lang b v
  | Alt a b => lang a w \/ lang b w
  | Opt a => lang a w \/ w = []
  | Star cl | StarLazy cl => Forall (fun x => cmatch icase cl x = true) w
  | Grp _ a => lang a w
  end.

(** The texts group [n] of a pattern can hold. *)
Fixpoint gcontent (n : nat) (r : regex) (t : pystr) : Prop :=
  match r with
  | Seq a b | Alt a b => gcontent n a t \/ gcontent n b t
  | Opt a => gcontent n a t
  | Grp m a => if Nat.eqb m n then lang a t else gcontent n a t
  | _ => False
  end.

(** Group [n] takes part in every match of the pattern. *)
Fixpoint sets (n : nat) (r : regex) : bool :=
  match r with
  | Seq a b => sets n a || sets n b
  | Alt a b => sets n a && sets n b
  | Grp m a => Nat.eqb m n || sets n a
  | _ => false
  end.

End Semantics.

(** The character before the position reached after reading [pre]. *)
Definition prev_after (pv : option ascii) (pre : pystr) : option ascii :=
  fold_left (fun _ c => Some c) pre pv.

(** The unit tokens of the per-unit pattern, by the unit they stand for *)
Definition per_unit_kg : list pystr :=
  [str "kilogram"; str "kg"; str "gram"; str "g"].

Definition per_unit_L : list pystr :=
  [str "litre"; str "l"; str "ml"; str "millilitre"].

Arguments cmatch : simpl never.
Arguments lower_char : simpl never.
Arguments is_digit : simpl never.
Arguments is_space : simpl never.
Arguments is_word : simpl never.

(** The unit words of the package-size pattern, by family *)
Definition unit_gram : list pystr := [str "g"; str "gram"; str "grams"].

Definition unit_millilitre : list pystr :=
  [str "ml"; str "millilitre"; str "millilitres"].

Definition unit_litre : list pystr := [str "l"; str "litre"; str "litres"].

Definition unit_kilogram : list pystr :=
  [str "kg"; str "kilogram"; str "kilograms"].

(** The literals group 1 of the package-size pattern can hold, with the
    number [float] reads from them *)
Definition decimal_value (t : pystr) (v : float) : Prop :=
  exists i, all_digits i = true /\
    ((t = i /\ v = of_ratio (digits_val i) 1) \/
     (exists f, all_digits f = true /\ t = i ++ "."%char :: f /\
        v = of_ratio (digits_val (i ++ f)) (10 ^ Z.of_nat (length f)))).

(** The bare year-month form: four digits, a hyphen, two digits *)
Definition is_yyyy_mm (s : pystr) : bool :=
  match s with
  | [y1; y2; y3; y4; h; m1; m2] =>
      is_digit y1 && is_digit y2 && is_digit y3 && is_digit y4 &&
      Ascii.eqb h "-" && is_digit m1 && is_digit m2
  | _ => false
  end.

(** No white space at either end *)
Definition trimmed (s : pystr) : Prop :=
  (forall c t, s = c :: t -> is_space c = false) /\
  (forall t c, s = t ++ [c] -> is_space c = false).

(** [keyword] occurs in [s] as a whole word or phrase: the character before
    the occurrence, if any, and the character after it, if any, are not word
    characters. *)
Definition occurs_whole (keyword s : pystr) : Prop :=
  exists pre suf,
    s = pre ++ keyword ++ suf /\
    word_opt (prev_after None pre) = false /\
    word_opt (hd_error suf) = false.

(** A keyword that begins and ends with a word character *)
Definition keyword_ok (keyword : pystr) : bool :=
  word_opt (hd_error keyword) && word_opt (prev_after None keyword).

(** Every keyword of a table begins and ends with a word character. *)
Definition table_ok (table : list (pystr * list pystr)) : bool :=
  forallb (fun p => forallb keyword_ok (snd p)) table.

(** No keyword of a table is found in a name. *)
Definition none_found (table : list (pystr * list pystr)) (n : pystr) : bool :=
  forallb (fun p => forallb (fun k => negb (keyword_found n k)) (snd p)) table.

(** A character that [[^\w\s]] does not remove *)
Definition plain_char (c : ascii) : bool := is_word c || is_space c.

(** Two white-space characters in a row *)
Fixpoint adj_ws (l : pystr) : bool :=
  match l with
  | a :: l' =>
      match l' with
      | b :: _ => (is_space a && is_space b) || adj_ws l'
      | [] => false
      end
  | [] => false
  end.

(** A float that is zero, positive or plus infinity: neither negative, nor
    minus zero, nor NaN *)
Definition nonneg (x : float) : bool :=
  match x with
  | S754_zero false | S754_infinity false | S754_finite false _ _ => true
  | _ => false
  end.

(** Title case as [str.title] leaves a text: no upper-case letter right
    after a letter, no lower-case letter anywhere else *)
Fixpoint title_cased (prev_cased : bool) (s : pystr) : bool :=
  match s with
  | [] => true
  | c :: s' =>
      (if prev_cased then negb (is_upper c) else negb (is_lower c))
      && title_cased (is_alpha c) s'
  end.

(** ** The summaries of [create_json_structure] *)

(** [DataFrame.drop_duplicates()]: the first occurrence of each record, in
    order; [seen] holds the records already kept. *)
Fixpoint drop_duplicates_from {A} (eqb : A -> A -> bool) (seen l : list A)
    : list A :=
  match l with
  | [] => []
  | x :: l' =>
      if existsb (eqb x) seen then drop_duplicates_from eqb seen l'
      else x :: drop_duplicates_from eqb (x :: seen) l'
  end.

Definition drop_duplicates {A} (eqb : A -> A -> bool) (l : list A) : list A :=
  drop_duplicates_from eqb [] l.

(** An entry of the [products] list *)
Record ProductRecord := {
  pd_product_name : pystr;
  pd_product_category : pystr;
  pd_product_unit : pystr
}.

Definition product_record (row : Row) : ProductRecord :=
  {| pd_product_name := product_name row;
     pd_product_category := product_category row;
     pd_product_unit := product_unit row |}.

Definition product_eqb (p q : ProductRecord) : bool :=
  pystr_eqb (pd_product_name p) (pd_product_name q)
  && pystr_eqb (pd_product_category p) (pd_product_category q)
  && pystr_eqb (pd_product_unit p) (pd_product_unit q).

(** [df[["product_name", "product_category", "product_unit"]]
      .drop_duplicates().to_dict("records")] *)
Definition products_list (df : list Row) : list ProductRecord :=
  drop_duplicates product_eqb (map product_record df).

(** An entry of the [locations] list *)
Record LocationRecord := {
  lc_location : pystr;
  lc_city : pystr;
  lc_province : pystr
}.

Definition location_record (row : Row) : LocationRecord :=
  {| lc_location := location row; lc_city := city row;
     lc_province := province row |}.

Definition location_eqb (p q : LocationRecord) : bool :=
  pystr_eqb (lc_location p) (lc_location q)
  && pystr_eqb (lc_city p) (lc_city q)
  && pystr_eqb (lc_province p) (lc_province q).

(** [df[["location", "city", "province"]].drop_duplicates()
      .to_dict("records")] *)
Definition locations_list (df : list Row) : list LocationRecord :=
  drop_duplicates location_eqb (map location_record df).

(** The number of rows of a category *)
Definition category_count (df : list Row) (cat : pystr) : nat :=
  length (filter (fun row => pystr_eqb (product_category row) cat) df).

(** Stable insertion by descending count *)
Fixpoint insert_desc (x : pystr * nat) (l : list (pystr * nat))
    : list (pystr * nat) :=
  match l with
  | [] => [x]
  | y :: l' => if snd y <=? snd x then x :: l else y :: insert_desc x l'
  end.

Definition sort_desc (l : list (pystr * nat)) : list (pystr * nat) :=
  fold_right insert_desc [] l.

(** [df["product_category"].value_counts()] as the list of its entries:
    one per category, by descending count, equal counts in the order in
    which the categories first appear; this is the list [categories] *)
Definition categories (df : list Row) : list (pystr * nat) :=
  sort_desc
    (map (fun cat => (cat, category_count df cat))
         (drop_duplicates pystr_eqb (map product_category df))).

(** [a < b] on strings: the order of their first differing characters, a
    proper prefix coming first *)
Fixpoint str_ltb (a b : pystr) : bool :=
  match a, b with
  | [], [] => false
  | [], _ :: _ => true
  | _ :: _, [] => false
  | x :: a', y :: b' =>
      if code x <? code y then true
      else if code y <? code x then false
      else str_ltb a' b'
  end.

Definition str_min (a b : pystr) : pystr := if str_ltb b a then b else a.
Definition str_max (a b : pystr) : pystr := if str_ltb a b then b else a.

(** [{"min": df["date"].min(), "max": df["date"].max()}]; [None] stands
    for the NaN both are on a table without rows *)
Definition date_range (df : list Row) : option (pystr * pystr) :=
  match map date df with
  | [] => None
  | d :: ds => Some (fold_left str_min ds d, fold_left str_max ds d)
  end.

(** The counts of the [metadata] entry *)
Record Metadata := {
  md_total_records : nat;
  md_total_products : nat;
  md_total_locations : nat;
  md_total_categories : nat;
  md_date_range : option (pystr * pystr)
}.

Definition metadata (df : list Row) : Metadata :=
  {| md_total_records := length (map price_record df);
     md_total_products := length (products_list df);
     md_total_locations := length (locations_list df);
     md_total_categories := length (categories df);
     md_date_range := date_range df |}.

(** * Properties *)

(** ** Properties of the matcher *)

Section MatcherFacts.

Variable icase : bool.

Lemma star_greedy_sound cl k : forall l pv cs res,
  star_greedy icase cl k pv l cs = Some res ->
  exists st', Matches icase (Star cl) (MState pv l cs) st' /\ k st' = Some res.
Proof.
  induction l as [|x l IH]; intros pv cs res H; simpl in H.
  - eexists; split; [apply M_StarNil | exact H].
  - destruct (cmatch icase cl x) eqn:Hx.
    + destruct (star_greedy icase cl k (Some x) l cs) eqn:Hs.
      * inversion H; subst. destruct (IH _ _ _ Hs) as [st' [Hm Hk]].
        exists st'; split; [eapply M_StarCons; eauto | exact Hk].
      * eexists; split; [apply M_StarNil | exact H].
    + eexists; split; [apply M_StarNil | exact H].
Qed.

Lemma star_lazy_sound cl k : forall l pv cs res,
  star_lazy icase cl k pv l cs = Some res ->
  exists st', Matches icase (StarLazy cl) (MState pv l cs) st' /\ k st' = Some res.
Proof.
  induction l as [|x l IH]; intros pv cs res H; simpl in H.
  - destruct (k (MState pv [] cs)) eqn:Hk; [|discriminate].
    eexists; split; [apply M_LazyNil | congruence].
  - destruct (k (MState pv (x :: l) cs)) eqn:Hk.
    + eexists; split; [apply M_LazyNil | congruence].
    + destruct (cmatch icase cl x) eqn:Hx; [|discriminate].
      destruct (IH _ _ _ H) as [st' [Hm Hk']].
      exists st'; split; [eapply M_LazyCons; eauto | exact Hk'].
Qed.

(** A successful run went through a position that [Matches] describes. *)
Lemma run_sound : forall r k st res,
  run icase r k st = Some res ->
  exists st', Matches icase r st st' /\ k st' = Some res.
Proof.
  induction r; intros k st res H; simpl in H.
  - eexists; split; [constructor | exact H].
  - destruct st as [pv [|x l] cs]; simpl in H; [discriminate|].
    destruct (cmatch icase c x) eqn:Hx; [|discriminate].
    eexists; split; [constructor; exact Hx | exact H].
  - destruct (IHr1 _ _ _ H) as [s2 [H1 H2]].
    destruct (IHr2 _ _ _ H2) as [s3 [H3 H4]].
    exists s3; split; [econstructor; eauto | exact H4].
  - destruct (run icase r1 k st) eqn:H1.
    + destruct (IHr1 _ _ _ H1) as [s2 [Hm Hk]].
      exists s2; split; [apply M_AltL; exact Hm | congruence].
    + destruct (IHr2 _ _ _ H) as [s2 [Hm Hk]].
      exists s2; split; [apply M_AltR; exact Hm | exact Hk].
  - destruct (run icase r k st) eqn:H1.
    + destruct (IHr _ _ _ H1) as [s2 [Hm Hk]].
      exists s2; split; [apply M_OptSome; exact Hm | congruence].
    + exists st; split; [apply M_OptNone | exact H].
  - destruct st as [pv l cs]; simpl in H. apply star_greedy_sound; exact H.
  - destruct st as [pv l cs]; simpl in H. apply star_lazy_sound; exact H.
  - destruct (IHr _ _ _ H) as [s2 [Hm Hk]].
    eexists; split; [apply M_Grp; exact Hm | exact Hk].
  - destruct (at_boundary st) eqn:Hb; [|discriminate].
    exists st; split; [constructor; exact Hb | exact H].
  - destruct (prev st) eqn:Hp; [discriminate|].
    exists st; split; [constructor; exact Hp | exact H].
  - destruct (at_eol st) eqn:Hb; [|discriminate].
    exists st; split; [constructor; exact Hb | exact H].
Qed.

Lemma star_greedy_fail cl k : forall l pv cs,
  star_greedy icase cl k pv l cs = None ->
  forall st', Matches icase (Star cl) (MState pv l cs) st' -> k st' = None.
Proof.
  induction l as [|x l IH]; intros pv cs H st' Hm; simpl in H.
  - inversion Hm; subst; exact H.
  - destruct (cmatch icase cl x) eqn:Hx.
    + destruct (star_greedy icase cl k (Some x) l cs) eqn:Hs; [discriminate|].
      inversion Hm; subst; [exact H | eapply IH; eauto].
    + inversion Hm; subst; [exact H | congruence].
Qed.

Lemma star_lazy_fail cl k : forall l pv cs,
  star_lazy icase cl k pv l cs = None ->
  forall st', Matches icase (StarLazy cl) (MState pv l cs) st' -> k st' = None.
Proof.
  induction l as [|x l IH]; intros pv cs H st' Hm; simpl in H.
  - destruct (k (MState pv [] cs)) eqn:Hk; [discriminate|].
    inversion Hm; subst; exact Hk.
  - destruct (k (MState pv (x :: l) cs)) eqn:Hk; [discriminate|].
    inversion Hm; subst; [exact Hk|].
    destruct (cmatch icase cl x) eqn:Hx; [eapply IH; eauto | congruence].
Qed.

(** A failed run means the continuation rejects every position that
    [Matches] allows. *)
Lemma run_fail : forall r k st,
  run icase r k st = None ->
  forall st', Matches icase r st st' -> k st' = None.
Proof.
  induction r; intros k st H st' Hm; simpl in H.
  - inversion Hm; subst; exact H.
  - inversion Hm as [|cl x l pv cs Hx| | | | | | | | | | | | |]; subst.
    simpl in H. rewrite Hx in H. exact H.
  - inversion Hm as [| |a b s1 s2 s3 Ha Hb| | | | | | | | | | | |]; subst.
    eapply IHr2; [|exact Hb]. eapply IHr1; [exact H|exact Ha].
  - destruct (run icase r1 k st) eqn:E; [discriminate|].
    inversion Hm; subst; [eapply IHr1 | eapply IHr2]; eauto.
  - destruct (run icase r k st) eqn:E; [discriminate|].
    inversion Hm; subst; [eapply IHr; eauto | exact H].
  - destruct st as [pv l cs]. eapply star_greedy_fail; [exact H | exact Hm].
  - destruct st as [pv l cs]. eapply star_lazy_fail; [exact H | exact Hm].
  - inversion Hm as [| | | | | | | | | | |m a s1 s2 Ha| | |]; subst.
    apply (IHr _ _ H _ Ha).
  - inversion Hm as [| | | | | | | | | | | |s Hb| |]; subst.
    rewrite Hb in H; exact H.
  - inversion Hm as [| | | | | | | | | | | | |s Hb|]; subst.
    rewrite Hb in H; exact H.
  - inversion Hm as [| | | | | | | | | | | | | |s Hb]; subst.
    rewrite Hb in H; exact H.
Qed.

Lemma prev_after_app pv (a b : pystr) :
  prev_after pv (a ++ b) = prev_after (prev_after pv a) b.
Proof. unfold prev_after. apply fold_left_app. Qed.

Lemma firstn_length_sub (w l : pystr) :
  firstn (length (w ++ l) - length l) (w ++ l) = w.
Proof.
  rewrite length_app, Nat.add_sub.
  rewrite firstn_app, Nat.sub_diag, firstn_all. simpl. apply app_nil_r.
Qed.

(** What a match consumes belongs to the language of the pattern. *)
Lemma Matches_lang r s1 s2 :
  Matches icase r s1 s2 ->
  exists w, rest s1 = w ++ rest s2 /\ lang icase r w /\
            prev s2 = prev_after (prev s1) w.
Proof.
  induction 1; simpl.
  - exists []; auto.
  - exists [x]; repeat split; eauto.
  - destruct IHMatches1 as [u [Hu [Lu Pu]]].
    destruct IHMatches2 as [v [Hv [Lv Pv]]].
    exists (u ++ v). rewrite Hu, Hv, app_assoc, prev_after_app, <- Pu, <- Pv.
    repeat split; eauto.
  - destruct IHMatches as [w [Hw [Lw Pw]]]. exists w; auto.
  - destruct IHMatches as [w [Hw [Lw Pw]]]. exists w; auto.
  - destruct IHMatches as [w [Hw [Lw Pw]]]. exists w; auto.
  - exists []; auto.
  - exists []; auto.
  - destruct IHMatches as [w [Hw [Lw Pw]]]. simpl in *.
    exists (x :: w). rewrite Hw. repeat split; auto.
  - exists []; auto.
  - destruct IHMatches as [w [Hw [Lw Pw]]]. simpl in *.
    exists (x :: w). rewrite Hw. repeat split; auto.
  - destruct IHMatches as [w [Hw [Lw Pw]]]. exists w; auto.
  - exists []; auto.
  - exists []; auto.
  - exists []; auto.
Qed.

Lemma Matches_consumed r s1 s2 :
  Matches icase r s1 s2 ->
  rest s1 = consumed s1 s2 ++ rest s2 /\ lang icase r (consumed s1 s2).
Proof.
  intros H. destruct (Matches_lang _ _ _ H) as [w [Hw [Lw _]]].
  unfold consumed. rewrite Hw, firstn_length_sub. auto.
Qed.

(** A group holds either what it held before the match or a text of the
    language of its body. *)
Lemma Matches_group r s1 s2 n t :
  Matches icase r s1 s2 ->
  assoc n (caps s2) = Some t ->
  assoc n (caps s1) = Some t \/ gcontent icase n r t.
Proof.
  induction 1; simpl; intros Ht; auto.
  - destruct (IHMatches2 Ht) as [Ht'|]; auto.
    destruct (IHMatches1 Ht'); auto.
  - destruct (IHMatches Ht); auto.
  - destruct (IHMatches Ht); auto.
  - destruct (Nat.eqb n0 n) eqn:E.
    + inversion Ht; subst. right.
      apply (proj2 (Matches_consumed _ _ _ H)).
    + auto.
Qed.

Lemma Matches_keeps r s1 s2 n :
  Matches icase r s1 s2 ->
  assoc n (caps s1) <> None -> assoc n (caps s2) <> None.
Proof.
  induction 1; simpl; auto.
  destruct (Nat.eqb n0 n); [discriminate | auto].
Qed.

Lemma Matches_sets r s1 s2 n :
  Matches icase r s1 s2 -> sets n r = true -> assoc n (caps s2) <> None.
Proof.
  induction 1; simpl; intros Hs; try discriminate.
  - apply orb_true_iff in Hs. destruct Hs as [Hs|Hs].
    + eapply Matches_keeps; eauto.
    + auto.
  - apply andb_true_iff in Hs. tauto.
  - apply andb_true_iff in Hs. tauto.
  - destruct (Nat.eqb n0 n); [discriminate | auto].
Qed.

Lemma match_at_sound r pv l st :
  match_at icase r pv l = Some st -> Matches icase r (MState pv l []) st.
Proof.
  unfold match_at. intros H. apply run_sound in H.
  destruct H as [st' [Hm He]]. inversion He; subst; exact Hm.
Qed.

Lemma match_at_none r pv l st :
  match_at icase r pv l = None -> ~ Matches icase r (MState pv l []) st.
Proof.
  unfold match_at. intros H Hm.
  pose proof (run_fail _ _ _ H _ Hm) as E. discriminate.
Qed.

Lemma match_at_complete r pv l st :
  Matches icase r (MState pv l []) st -> match_at icase r pv l <> None.
Proof. intros Hm E. exact (match_at_none _ _ _ _ E Hm). Qed.

(** [re.search] returns a match at the place it reports. *)
Lemma search_from_some r : forall l pv pre st,
  search_from icase r pv l = Some (pre, st) ->
  exists l', l = pre ++ l' /\
             match_at icase r (prev_after pv pre) l' = Some st.
Proof.
  induction l as [|c l IH]; intros pv pre st H; simpl in H.
  - destruct (match_at icase r pv []) eqn:E; [|discriminate].
    inversion H; subst. exists []; auto.
  - destruct (match_at icase r pv (c :: l)) eqn:E.
    + inversion H; subst. exists (c :: l); auto.
    + destruct (search_from icase r (Some c) l) as [[p s']|] eqn:E2;
        [|discriminate].
      inversion H; subst. destruct (IH _ _ _ E2) as [l' [Hl Hm]].
      exists l'. subst l. auto.
Qed.

(** [re.search] fails only when no position has a match. *)
Lemma search_from_none r : forall l pv,
  search_from icase r pv l = None ->
  forall pre l', l = pre ++ l' ->
                 match_at icase r (prev_after pv pre) l' = None.
Proof.
  induction l as [|c l IH]; intros pv H pre l' Hl; simpl in H.
  - destruct (match_at icase r pv []) eqn:E; [discriminate|].
    destruct pre; [|discriminate]. simpl in Hl; subst. exact E.
  - destruct (match_at icase r pv (c :: l)) eqn:E; [discriminate|].
    destruct (search_from icase r (Some c) l) as [[p s']|] eqn:E2;
      [discriminate|].
    destruct pre as [|d pre]; simpl in Hl.
    + subst. exact E.
    + inversion Hl; subst. apply (IH (Some d) E2 pre l' eq_refl).
Qed.

Lemma search_from_found r pv pre l' :
  match_at icase r (prev_after pv pre) l' <> None ->
  search_from icase r pv (pre ++ l') <> None.
Proof.
  intros H E. apply H. eapply search_from_none; eauto.
Qed.

(** A substitution leaves a text without match as it is. *)
Lemma sub_from_none r repl : forall l pv,
  search_from icase r pv l = None -> sub_from icase r repl 0 pv l = l.
Proof.
  induction l as [|c l IH]; intros pv H; simpl in *.
  - destruct (match_at icase r pv []); [discriminate | reflexivity].
  - destruct (match_at icase r pv (c :: l)); [discriminate|].
    destruct (search_from icase r (Some c) l) as [[p s']|] eqn:E2;
      [discriminate|].
    rewrite IH; auto.
Qed.

Lemma sub_from_nil r repl pv :
  sub_from icase r repl 0 pv [] =
  match match_at icase r pv [] with Some _ => repl | None => [] end.
Proof.
  simpl. destruct (match_at icase r pv []); [apply app_nil_r | reflexivity].
Qed.

Lemma sub_from_cons r repl pv c l :
  sub_from icase r repl 0 pv (c :: l) =
  match match_at icase r pv (c :: l) with
  | Some st =>
      repl ++
      match length (c :: l) - length (rest st) with
      | S n => sub_from icase r repl n (Some c) l
      | O => c :: sub_from icase r repl 0 (Some c) l
      end
  | None => c :: sub_from icase r repl 0 (Some c) l
  end.
Proof. reflexivity. Qed.

Lemma sub_from_skip r repl n pv c l :
  sub_from icase r repl (S n) pv (c :: l) = sub_from icase r repl n (Some c) l.
Proof. reflexivity. Qed.

(** The characters of a substitution come from the text or from the
    replacement. *)
Lemma sub_from_In r repl x : forall l skip pv,
  In x (sub_from icase r repl skip pv l) -> In x l \/ In x repl.
Proof.
  induction l as [|c l IH]; intros skip pv H.
  - destruct skip; [|simpl in H; contradiction].
    rewrite sub_from_nil in H.
    destruct (match_at icase r pv []) as [st|]; [auto | contradiction].
  - destruct skip.
    + rewrite sub_from_cons in H.
      destruct (match_at icase r pv (c :: l)) as [st|].
      * apply in_app_or in H. destruct H as [H|H]; auto.
        destruct (length (c :: l) - length (rest st)).
        -- destruct H as [H|H]; [left; left; exact H|].
           destruct (IH _ _ H); auto. left; right; auto.
        -- destruct (IH _ _ H); auto. left; right; auto.
      * destruct H as [H|H]; [left; left; exact H|].
        destruct (IH _ _ H); auto. left; right; auto.
    + rewrite sub_from_skip in H.
      destruct (IH _ _ H); auto. left; right; auto.
Qed.

End MatcherFacts.

(** ** Unit extraction *)

Lemma cmatch_lit_icase c x :
  cmatch true (CLit c) x = true -> lower_char x = lower_char c.
Proof. unfold cmatch. apply Ascii.eqb_eq. Qed.

Lemma cmatch_lit_exact c x : cmatch false (CLit c) x = true -> x = c.
Proof. unfold cmatch. apply Ascii.eqb_eq. Qed.

Ltac crack :=
  repeat match goal with
  | H : _ \/ _ |- _ => destruct H
  | H : _ /\ _ |- _ => destruct H
  | H : exists _, _ |- _ => destruct H
  | H : False |- _ => contradiction
  | H : cmatch true (CLit _) _ = true |- _ => apply cmatch_lit_icase in H
  end; subst.

Ltac lower_known :=
  unfold lower; simpl map;
  repeat match goal with
  | H : lower_char _ = lower_char _ |- _ => rewrite H; clear H
  end.

Lemma per_unit_group_content t :
  gcontent true 1 PER_UNIT_EXPR t ->
  In (lower t) per_unit_kg \/ In (lower t) per_unit_L.
Proof.
  intros H. simpl in H. crack; lower_known; vm_compute; tauto.
Qed.

Lemma search_group_content r text m n :
  re_search true r text = Some m ->
  sets n r = true ->
  exists t, group n m = Some t /\ gcontent true n r t.
Proof.
  intros Hs Hn. destruct m as [pre st]. unfold re_search in Hs.
  apply search_from_some in Hs. destruct Hs as [l' [_ Hm]].
  apply match_at_sound in Hm.
  pose proof (Matches_sets _ _ _ _ n Hm Hn) as Hd.
  unfold group; simpl. destruct (assoc n (caps st)) as [t|] eqn:E;
    [|congruence].
  exists t; split; [reflexivity|].
  destruct (Matches_group _ _ _ _ _ _ Hm E) as [H|H]; [discriminate | exact H].
Qed.

Lemma per_unit_branch_result m t :
  group 1 m = Some t ->
  (In (lower t) per_unit_kg -> per_unit_branch m = Some (one, str "kg")) /\
  (In (lower t) per_unit_L -> per_unit_branch m = Some (one, str "L")).
Proof.
  intros Hg. unfold per_unit_branch. rewrite Hg.
  split; intros Hin; simpl in Hin;
    repeat (destruct Hin as [Hin|Hin]; [rewrite <- Hin; reflexivity|]);
    contradiction.
Qed.

Lemma per_unit_branch_taken (text : pystr) :
  re_search true PER_UNIT_EXPR text <> None ->
  exists per_match g1,
    re_search true PER_UNIT_EXPR text = Some per_match /\
    group 1 per_match = Some g1 /\
    ((In (lower g1) per_unit_kg /\
      _extract_weight_and_unit text = Some (one, str "kg")) \/
     (In (lower g1) per_unit_L /\
      _extract_weight_and_unit text = Some (one, str "L"))).
Proof.
  intros Hs. unfold _extract_weight_and_unit.
  destruct (re_search true PER_UNIT_EXPR text) as [m|] eqn:E; [|congruence].
  destruct (search_group_content _ _ _ 1 E eq_refl) as [t [Hg Hc]].
  exists m, t. repeat split; auto.
  destruct (per_unit_branch_result _ _ Hg) as [Hkg HL].
  destruct (per_unit_group_content _ Hc) as [H|H]; [left | right]; auto.
Qed.



Lemma split_on_nosep sep : forall s,
  (forall c, In c s -> c <> sep) -> split_on sep s = [s].
Proof.
  induction s as [|c s IH]; intros H; simpl; [reflexivity|].
  destruct (Ascii.eqb c sep) eqn:E.
  - apply Ascii.eqb_eq in E. exfalso. apply (H c); simpl; auto.
  - rewrite IH; [reflexivity | intros; apply H; simpl; auto].
Qed.

Lemma split_on_app sep : forall a b,
  (forall c, In c a -> c <> sep) ->
  split_on sep (a ++ sep :: b) = a :: split_on sep b.
Proof.
  induction a as [|c a IH]; intros b H; simpl.
  - rewrite Ascii.eqb_refl. reflexivity.
  - destruct (Ascii.eqb c sep) eqn:E.
    + apply Ascii.eqb_eq in E. exfalso. apply (H c); simpl; auto.
    + rewrite IH; [reflexivity | intros; apply H; simpl; auto].
Qed.

Lemma all_digits_no_dot i c : all_digits i = true -> In c i -> c <> "."%char.
Proof.
  intros H Hin E. subst. destruct i; [contradiction|].
  unfold all_digits in H. rewrite forallb_forall in H.
  specialize (H _ Hin). vm_compute in H. discriminate.
Qed.

Lemma pyfloat_int i :
  all_digits i = true -> pyfloat i = Some (of_ratio (digits_val i) 1).
Proof.
  intros H. unfold pyfloat.
  rewrite split_on_nosep by (intros c Hc; eapply all_digits_no_dot; [exact H | exact Hc]).
  rewrite H. reflexivity.
Qed.

Lemma pyfloat_frac i f :
  all_digits i = true -> all_digits f = true ->
  pyfloat (i ++ "."%char :: f) =
  Some (of_ratio (digits_val (i ++ f)) (10 ^ Z.of_nat (length f))).
Proof.
  intros Hi Hf. unfold pyfloat.
  rewrite split_on_app by (intros c Hc; eapply all_digits_no_dot; [exact Hi | exact Hc]).
  rewrite split_on_nosep by (intros c Hc; eapply all_digits_no_dot; [exact Hf | exact Hc]).
  rewrite Hi, Hf. reflexivity.
Qed.

Lemma decimal_value_pyfloat t v : decimal_value t v -> pyfloat t = Some v.
Proof.
  intros [i [Hi [[-> ->]|[f [Hf [-> ->]]]]]].
  - apply pyfloat_int; exact Hi.
  - apply pyfloat_frac; assumption.
Qed.

Lemma all_digits_cons x w :
  cmatch true CDigit x = true ->
  Forall (fun y => cmatch true CDigit y = true) w ->
  all_digits (x :: w) = true.
Proof.
  intros Hx Hw. unfold all_digits. simpl forallb.
  apply andb_true_iff; split; [exact Hx|].
  apply forallb_forall. rewrite Forall_forall in Hw. exact Hw.
Qed.

Lemma lang_digits w : lang true (plus CDigit) w -> all_digits w = true.
Proof.
  intros (u & v & -> & (x & -> & Hx) & Hv). apply all_digits_cons; assumption.
Qed.

Lemma lit_dot x : cmatch true (CLit ".") x = true -> x = "."%char.
Proof.
  intros H. apply cmatch_lit_icase in H. revert H.
  destruct x as [[] [] [] [] [] [] [] []]; vm_compute; congruence.
Qed.

(** Group 1 of a package-size match is a decimal literal. *)
Lemma package_number_content t :
  gcontent true 1 PACKAGE_SIZE_EXPR t -> exists v, decimal_value t v.
Proof.
  intros H.
  assert (L : lang true
                (Seq (plus CDigit)
                     (Opt (Grp 2 (Seq (Chr (ch ".")) (plus CDigit))))) t).
  { simpl in H.
    repeat match goal with
    | H : _ \/ _ |- _ => destruct H
    | H : False |- _ => contradiction
    end.
    exact H. }
  clear H. destruct L as (i & w & -> & Hi & [Hw | ->]).
  - destruct Hw as (d & f & -> & (x & -> & Hx) & Hf).
    apply lit_dot in Hx. subst x.
    apply lang_digits in Hi. apply lang_digits in Hf.
    eexists. exists i. split; [exact Hi|]. right.
    exists f. split; [exact Hf|]. split; reflexivity.
  - apply lang_digits in Hi. rewrite app_nil_r.
    eexists. exists i. split; [exact Hi|]. left. split; reflexivity.
Qed.

(** Group 3 of a package-size match is one of the twelve unit words. *)
Lemma package_unit_content t :
  gcontent true 3 PACKAGE_SIZE_EXPR t ->
  In (lower t) unit_gram \/ In (lower t) unit_millilitre \/
  In (lower t) unit_litre \/ In (lower t) unit_kilogram.
Proof.
  intros H. simpl in H. crack; lower_known; vm_compute; tauto.
Qed.

Lemma package_convert_family value u :
  (In u unit_gram ->
   package_convert value u = (div value (of_Z 1000), str "kg")) /\
  (In u unit_millilitre ->
   package_convert value u = (div value (of_Z 1000), str "L")) /\
  (In u unit_litre -> package_convert value u = (value, str "L")) /\
  (In u unit_kilogram -> package_convert value u = (value, str "kg")).
Proof.
  repeat split; intros Hin; simpl in Hin;
    repeat (destruct Hin as [Hin|Hin]; [rewrite <- Hin; reflexivity|]);
    contradiction.
Qed.

(** The package branch on a description with a package-size match *)
Lemma package_branch_match text m :
  re_search true PACKAGE_SIZE_EXPR text = Some m ->
  exists g1 g3 value,
    group 1 m = Some g1 /\ group 3 m = Some g3 /\ decimal_value g1 value /\
    (In (lower g3) unit_gram \/ In (lower g3) unit_millilitre \/
     In (lower g3) unit_litre \/ In (lower g3) unit_kilogram) /\
    package_branch text = Some (package_convert value (lower g3)).
Proof.
  intros E.
  destruct (search_group_content _ _ _ 1 E eq_refl) as [g1 [Hg1 Hc1]].
  destruct (search_group_content _ _ _ 3 E eq_refl) as [g3 [Hg3 Hc3]].
  destruct (package_number_content _ Hc1) as [v Hv].
  exists g1, g3, v. repeat split; auto.
  - apply package_unit_content; exact Hc3.
  - unfold package_branch. rewrite E, Hg1, (decimal_value_pyfloat _ _ Hv), Hg3.
    reflexivity.
Qed.

(** [_extract_weight_and_unit] raises on no description. *)
Lemma extract_total text : exists wu, _extract_weight_and_unit text = Some wu.
Proof.
  unfold _extract_weight_and_unit.
  destruct (re_search true PER_UNIT_EXPR text) as [m|] eqn:E.
  - destruct (search_group_content _ _ _ 1 E eq_refl) as [t [Hg _]].
    unfold per_unit_branch. rewrite Hg.
    repeat match goal with
    | |- context [if ?b then _ else _] => destruct b
    end; eexists; reflexivity.
  - destruct (re_search true PACKAGE_SIZE_EXPR text) as [m|] eqn:E2.
    + destruct (package_branch_match _ _ E2) as (g1 & g3 & v & _ & _ & _ & _ & H).
      eexists; exact H.
    + unfold package_branch. rewrite E2. eexists; reflexivity.
Qed.

(** ** Floats *)












Lemma le0_not_gt0 x : le0 x = true -> gt0 x = false.
Proof.
  unfold le0, gt0, leb, ltb, SFleb, SFltb, zero.
  destruct x as [s|s| |s m e]; simpl; try reflexivity; destruct s;
    simpl; congruence.
Qed.

Lemma gt0_not_le0 x : gt0 x = true -> le0 x = false.
Proof.
  intros H. destruct (le0 x) eqn:E; [|reflexivity].
  apply le0_not_gt0 in E. congruence.
Qed.

(** ** Rows *)

Lemma transform_row_eq r :
  exists wu,
    _extract_weight_and_unit (Products r) = Some wu /\
    transform_row r =
    Some {| date := _format_date (REF_DATE r);
            location := title (strip (GEO r));
            product_raw := Products r;
            product_price := VALUE r;
            is_per_unit := str_contains_per_unit (Products r);
            product_weight := fst wu;
            product_unit := snd wu;
            product_name := _clean_product_name (Products r);
            product_category :=
              _infer_category (_clean_product_name (Products r));
            price_per_unit :=
              round2 (normalize_price (VALUE r)
                        (str_contains_per_unit (Products r)) (fst wu));
            city := fst (_parse_location (title (strip (GEO r))));
            province := snd (_parse_location (title (strip (GEO r)))) |}.
Proof.
  destruct (extract_total (Products r)) as [wu H]. exists wu.
  split; [exact H|]. unfold transform_row. rewrite H. reflexivity.
Qed.

Lemma str_contains_search text :
  str_contains_per_unit text = true <->
  re_search true PER_UNIT_EXPR text <> None.
Proof.
  unfold str_contains_per_unit.
  destruct (re_search true PER_UNIT_EXPR text); split; congruence.
Qed.

(** C9: the per-unit flag of [transform] is set exactly when
    [_extract_weight_and_unit] takes its per-unit branch, the package
    branch is taken exactly when it is not set, and a row whose flag is set
    has weight 1.0, unit "kg" or "L", and a price that is the rounded raw
    price, never a quotient by a package weight. *)
Theorem per_unit_flag_agrees (text : pystr) :
  (str_contains_per_unit text = true ->
   exists per_match,
     re_search true PER_UNIT_EXPR text = Some per_match /\
     _extract_weight_and_unit text = per_unit_branch per_match /\
     (_extract_weight_and_unit text = Some (one, str "kg") \/
      _extract_weight_and_unit text = Some (one, str "L"))) /\
  (str_contains_per_unit text = false ->
   _extract_weight_and_unit text = package_branch text) /\
  (forall d g price, exists row,
     transform_row {| REF_DATE := d; GEO := g; Products := text;
                      VALUE := price |} = Some row /\
     is_per_unit row = str_contains_per_unit text /\
     (is_per_unit row = true ->
      product_weight row = one /\
      (product_unit row = str "kg" \/ product_unit row = str "L") /\
      price_per_unit row = round2 price)).
Proof.
  assert (A : str_contains_per_unit text = true ->
    exists per_match,
     re_search true PER_UNIT_EXPR text = Some per_match /\
     _extract_weight_and_unit text = per_unit_branch per_match /\
     (_extract_weight_and_unit text = Some (one, str "kg") \/
      _extract_weight_and_unit text = Some (one, str "L"))).
  { intros H. apply str_contains_search in H.
    destruct (per_unit_branch_taken _ H) as (m & g1 & E & _ & Hr).
    exists m. split; [exact E|]. split.
    - unfold _extract_weight_and_unit. rewrite E. reflexivity.
    - destruct Hr as [[_ Hr]|[_ Hr]]; auto. }
  split; [exact A|]. split.
  - unfold str_contains_per_unit, _extract_weight_and_unit.
    destruct (re_search true PER_UNIT_EXPR text); [discriminate | reflexivity].
  - intros d g price.
    destruct (transform_row_eq {| REF_DATE := d; GEO := g; Products := text;
                                  VALUE := price |}) as [wu [Hwu Hrow]].
    simpl in Hwu, Hrow. eexists. split; [exact Hrow|]. simpl.
    split; [reflexivity|]. intros Hp.
    destruct (A Hp) as (m & _ & _ & Hr). rewrite Hwu in Hr.
    unfold normalize_price. rewrite Hp.
    destruct Hr as [Hr|Hr]; inversion Hr; subst; simpl; auto.
Qed.

Lemma per_unit_flag_agrees_witness :
  _extract_weight_and_unit (str "Beef, ground, per kilogram")
    = Some (one, str "kg") \/
  _extract_weight_and_unit (str "Beef, ground, per kilogram")
    = Some (one, str "L").
Proof.
  destruct (per_unit_flag_agrees (str "Beef, ground, per kilogram"))
    as [H _].
  destruct (H eq_refl) as (m & _ & _ & Hr). exact Hr.
Defined.



(** A description without any match: the weight is 1.0, the unit "unit"
    and the price the rounded raw price. *)
Example price_without_match :
  exists row,
    transform_row {| REF_DATE := str "2023-01"; GEO := str "Canada";
                     Products := str "Eggs, 1 dozen";
                     VALUE := of_ratio 399 100 |} = Some row /\
    product_weight row = one /\ product_unit row = str "unit" /\
    price_per_unit row = round2 (of_ratio 399 100).
Proof.
  eexists. split; [vm_compute; reflexivity|].
  split; [reflexivity|]. split; [reflexivity|]. vm_compute. reflexivity.
Qed.

Lemma map_rows_nil r :
  map_rows r [] = row <- transform_row r ;; Some [row].
Proof. reflexivity. Qed.

Lemma map_rows_cons r r' df :
  map_rows r (r' :: df) =
  row <- transform_row r ;; rows <- map_rows r' df ;; Some (row :: rows).
Proof. reflexivity. Qed.

Lemma map_rows_spec df : forall r,
  exists rows,
    map_rows r df = Some rows /\
    length rows = S (length df) /\
    forall row, In row rows <->
                exists r', In r' (r :: df) /\ transform_row r' = Some row.
Proof.
  induction df as [|r1 df IH]; intros r;
    destruct (transform_row_eq r) as [wu [_ Hr]].
  - rewrite map_rows_nil, Hr.
    eexists. split; [reflexivity|]. split; [reflexivity|].
    intros row; split.
    + intros [E|[]]. exists r. split; [left; reflexivity|].
      rewrite Hr, E. reflexivity.
    + intros [r' [[E|[]] Ht]]. subst r'. rewrite Hr in Ht.
      inversion Ht. left; reflexivity.
  - destruct (IH r1) as [rows [Hrows [Hlen Hin]]].
    rewrite map_rows_cons, Hr, Hrows.
    eexists. split; [reflexivity|].
    split; [cbn [length]; rewrite Hlen; reflexivity|].
    intros row; split.
    + intros [E|Hi].
      * exists r. split; [left; reflexivity|]. rewrite Hr, E. reflexivity.
      * apply Hin in Hi. destruct Hi as [r' [Hr' Ht]].
        exists r'. split; [right; exact Hr' | exact Ht].
    + intros [r' [[E|Hr'] Ht]].
      * subst r'. rewrite Hr in Ht. inversion Ht. left; reflexivity.
      * right. apply Hin. exists r'; auto.
Qed.

(** C4: on a table with at least one row the run gives a document; every
    record of its [prices] list has a price above zero, a row whose
    normalized and rounded price is zero or negative leaves no record
    there, and a row whose price is above zero does. *)
Theorem prices_positive (df : list RawRow) :
  df <> [] ->
  exists doc,
    process df = Some doc /\
    (forall rec, In rec (prices doc) ->
       gt0 (pr_price_per_unit rec) = true /\
       le0 (pr_price_per_unit rec) = false) /\
    (forall r row, In r df -> transform_row r = Some row ->
       le0 (price_per_unit row) = true ->
       ~ In (price_record row) (prices doc)) /\
    (forall r row, In r df -> transform_row r = Some row ->
       gt0 (price_per_unit row) = true ->
       In (price_record row) (prices doc)).
Proof.
  intros Hne. destruct df as [|r0 df0]; [congruence|]. clear Hne.
  destruct (map_rows_spec df0 r0) as [rows [Hrows [_ Hin]]].
  unfold process, transform. rewrite Hrows.
  eexists. split; [reflexivity|]. cbn [prices create_json_structure].
  assert (A : forall rec,
    In rec (map price_record
              (filter (fun row => gt0 (price_per_unit row)) rows)) ->
    gt0 (pr_price_per_unit rec) = true).
  { intros rec H. apply in_map_iff in H. destruct H as [row [<- H]].
    apply filter_In in H. exact (proj2 H). }
  split; [|split].
  - intros rec H. split; [exact (A rec H)|].
    apply gt0_not_le0. exact (A rec H).
  - intros r row _ _ Hle H. apply A in H. simpl in H.
    apply le0_not_gt0 in Hle. congruence.
  - intros r row Hr Ht Hgt. apply in_map. apply filter_In.
    split; [|exact Hgt]. apply Hin. exists r; auto.
Qed.

Lemma prices_positive_witness :
  exists doc,
    process [ {| REF_DATE := str "2023-01"; GEO := str "Canada";
                 Products := str "Eggs, 1 dozen";
                 VALUE := of_ratio 399 100 |};
              {| REF_DATE := str "2023-01"; GEO := str "Canada";
                 Products := str "Milk, 1 litre"; VALUE := zero |} ]
      = Some doc /\
    forall rec, In rec (prices doc) -> gt0 (pr_price_per_unit rec) = true.
Proof.
  destruct (prices_positive
    [ {| REF_DATE := str "2023-01"; GEO := str "Canada";
         Products := str "Eggs, 1 dozen"; VALUE := of_ratio 399 100 |};
      {| REF_DATE := str "2023-01"; GEO := str "Canada";
         Products := str "Milk, 1 litre"; VALUE := zero |} ])
    as (doc & Hdoc & Hpos & _); [discriminate|].
  exists doc. split; [exact Hdoc|].
  intros rec Hin. exact (proj1 (Hpos rec Hin)).
Defined.

(** A table without rows: [transform] raises, and no document is built. *)
Example empty_table_raises : transform [] = None /\ process [] = None.
Proof. split; reflexivity. Qed.

(** The second row of the example above has price 0.0 and is dropped. *)
Example zero_price_dropped :
  option_map total_records
    (process [ {| REF_DATE := str "2023-01"; GEO := str "Canada";
                  Products := str "Eggs, 1 dozen";
                  VALUE := of_ratio 399 100 |};
               {| REF_DATE := str "2023-01"; GEO := str "Canada";
                  Products := str "Milk, 1 litre"; VALUE := zero |} ])
  = Some 1.
Proof. vm_compute. reflexivity. Qed.

(** ** Stripping and splitting *)

Lemma lstrip_split x :
  exists p, x = p ++ lstrip x /\ forall c, In c p -> is_space c = true.
Proof.
  induction x as [|c x [p [Hx Hp]]]; simpl.
  - exists []; split; [reflexivity | intros c []].
  - destruct (is_space c) eqn:E.
    + exists (c :: p). split; [simpl; congruence|].
      intros d [<-|Hd]; auto.
    + exists []; split; [reflexivity | intros d []].
Qed.

Lemma lstrip_head x c t : lstrip x = c :: t -> is_space c = false.
Proof.
  induction x as [|d x IH]; simpl; [discriminate|].
  destruct (is_space d) eqn:E; [exact IH|].
  intros H; inversion H; subst; exact E.
Qed.

Lemma lstrip_id x :
  (forall c t, x = c :: t -> is_space c = false) -> lstrip x = x.
Proof.
  destruct x as [|c x]; simpl; [reflexivity|]. intros H.
  rewrite (H c x eq_refl). reflexivity.
Qed.

Lemma lstrip_spaces x :
  (forall c, In c x -> is_space c = true) -> lstrip x = [].
Proof.
  induction x as [|c x IH]; simpl; [reflexivity|]. intros H.
  rewrite (H c (or_introl eq_refl)). apply IH. intros d Hd; apply H; auto.
Qed.

Lemma rstrip_split x :
  exists p, x = rstrip x ++ p /\ forall c, In c p -> is_space c = true.
Proof.
  unfold rstrip. destruct (lstrip_split (rev x)) as [p [Hx Hp]].
  exists (rev p). split.
  - rewrite <- rev_app_distr, <- Hx, rev_involutive. reflexivity.
  - intros c Hc. apply Hp. apply in_rev. exact Hc.
Qed.

Lemma rstrip_last x t c : rstrip x = t ++ [c] -> is_space c = false.
Proof.
  unfold rstrip. intros H.
  assert (E : lstrip (rev x) = c :: rev t).
  { rewrite <- (rev_involutive (lstrip (rev x))), H, rev_app_distr.
    reflexivity. }
  exact (lstrip_head _ _ _ E).
Qed.

Lemma rstrip_id x :
  (forall t c, x = t ++ [c] -> is_space c = false) -> rstrip x = x.
Proof.
  intros H. unfold rstrip. rewrite lstrip_id; [apply rev_involutive|].
  intros c t E. apply (H (rev t) c).
  rewrite <- (rev_involutive x), E. reflexivity.
Qed.

Lemma strip_trimmed s : trimmed (strip s).
Proof.
  unfold strip. split.
  - intros c t E. destruct (rstrip_split (lstrip s)) as [p [Hs _]].
    rewrite E in Hs. simpl in Hs. exact (lstrip_head _ _ _ Hs).
  - intros t c E. exact (rstrip_last _ _ _ E).
Qed.

Lemma strip_id s : trimmed s -> strip s = s.
Proof.
  intros [H1 H2]. unfold strip. rewrite (lstrip_id _ H1). apply rstrip_id, H2.
Qed.

Lemma strip_spaces s : (forall c, In c s -> is_space c = true) -> strip s = [].
Proof. intros H. unfold strip. rewrite (lstrip_spaces _ H). reflexivity. Qed.

Lemma strip_In c s : In c (strip s) -> In c s.
Proof.
  intros H. unfold strip in H.
  destruct (rstrip_split (lstrip s)) as [p [E _]].
  destruct (lstrip_split s) as [q [E' _]].
  rewrite E'. apply in_or_app. right. rewrite E. apply in_or_app. left.
  exact H.
Qed.

(** ** Locations *)

(** C10: for a location with one comma followed only by white space, such as
    "Toronto,", [_parse_location] returns the trimmed text before the comma
    as the city and the empty string as the province. *)
Theorem parse_location_empty_province (a b : pystr) :
  (forall c, In c a -> c <> ","%char) ->
  (forall c, In c b -> is_space c = true) ->
  _parse_location (a ++ ","%char :: b) = (strip a, []).
Proof.
  intros Ha Hb. unfold _parse_location.
  rewrite (split_on_app _ _ _ Ha).
  rewrite split_on_nosep.
  - simpl. rewrite (strip_spaces _ Hb). reflexivity.
  - intros c Hc E. subst c. apply Hb in Hc. vm_compute in Hc. discriminate.
Qed.

Lemma parse_location_empty_province_witness :
  _parse_location (str "Toronto,") = (str "Toronto", []).
Proof.
  apply (parse_location_empty_province (str "Toronto") []).
  - intros c Hc E. subst c. simpl in Hc.
    repeat (destruct Hc as [Hc|Hc]; [discriminate|]). exact Hc.
  - intros c [].
Defined.

(** With text on both sides of the only comma, both parts come back
    stripped. *)
Lemma parse_location_two_parts (a b : pystr) :
  (forall c, In c a -> c <> ","%char) ->
  (forall c, In c b -> c <> ","%char) ->
  _parse_location (a ++ ","%char :: b) = (strip a, strip b).
Proof.
  intros Ha Hb. unfold _parse_location.
  rewrite (split_on_app _ _ _ Ha), (split_on_nosep _ _ Hb). reflexivity.
Qed.

(** ** Dates *)

Lemma is_space_newline : is_space newline = true.
Proof. reflexivity. Qed.

(** On a text that does not end with a newline, the date pattern matches
    exactly the bare year-month form. *)
Lemma date_match l :
  (forall t c, l = t ++ [c] -> is_space c = false) ->
  match re_match false DATE_EXPR l with
  | Some _ => is_yyyy_mm l = true
  | None => is_yyyy_mm l = false
  end.
Proof.
  intros Hl. unfold re_match, match_at.
  destruct l as [|y1 [|y2 [|y3 [|y4 [|h [|m1 [|m2 [|x l]]]]]]]]; simpl;
    unfold cmatch;
    repeat match goal with
    | |- context [is_digit ?c] => destruct (is_digit c); simpl
    | |- context [Ascii.eqb ?a ?b] =>
        lazymatch a with
        | newline => fail
        | _ => destruct (Ascii.eqb a b) eqn:?; simpl
        end
    end; try reflexivity.
  unfold at_eol; simpl. destruct l as [|z l]; [|reflexivity].
  destruct (Ascii.eqb x newline) eqn:E; [|reflexivity].
  apply Ascii.eqb_eq in E. subst x.
  pose proof (Hl [y1; y2; y3; y4; h; m1; m2] newline eq_refl) as H.
  rewrite is_space_newline in H. discriminate.
Qed.

(** C6, as amended: [_format_date] first strips the surrounding white
    space; it appends "-01" exactly when the stripped text has the bare
    year-month form, and returns the stripped text as it is otherwise.  A
    date without surrounding white space is therefore completed when it has
    that form and returned unchanged when it has not. *)
Theorem format_date_stripped (date_str : pystr) :
  (is_yyyy_mm (strip date_str) = true ->
   _format_date date_str = strip date_str ++ str "-01") /\
  (is_yyyy_mm (strip date_str) = false ->
   _format_date date_str = strip date_str) /\
  (trimmed date_str ->
   (is_yyyy_mm date_str = true ->
    _format_date date_str = date_str ++ str "-01") /\
   (is_yyyy_mm date_str = false -> _format_date date_str = date_str)).
Proof.
  assert (A : forall s,
    (is_yyyy_mm (strip s) = true -> _format_date s = strip s ++ str "-01") /\
    (is_yyyy_mm (strip s) = false -> _format_date s = strip s)).
  { intros s. unfold _format_date.
    pose proof (date_match (strip s) (proj2 (strip_trimmed s))) as H.
    destruct (re_match false DATE_EXPR (strip s)); rewrite H; split;
      intros; congruence. }
  split; [apply A|]. split; [apply A|].
  intros Ht. pose proof (A date_str) as H.
  rewrite (strip_id _ Ht) in H. exact H.
Qed.

Lemma format_date_stripped_witness :
  _format_date (str "2023-05") = str "2023-05-01" /\
  _format_date (str "2023-05-15") = str "2023-05-15" /\
  _format_date (str " 2023-05 ") = str "2023-05-01".
Proof.
  split; [|split].
  - apply (proj1 (format_date_stripped (str "2023-05"))). reflexivity.
  - apply (proj1 (proj2 (format_date_stripped (str "2023-05-15")))).
    reflexivity.
  - apply (proj1 (format_date_stripped (str " 2023-05 "))). reflexivity.
Defined.

(** C6 as stated fails: a date with white space around it is neither of the
    bare form nor returned unchanged. *)
Lemma format_date_not_unchanged :
  re_match false DATE_EXPR (str " 2023-05-15") = None /\
  _format_date (str " 2023-05-15") <> str " 2023-05-15" /\
  re_match false DATE_EXPR (str " 2023-05") = None /\
  _format_date (str " 2023-05") = str "2023-05-01".
Proof.
  split; [reflexivity|]. split; [vm_compute; discriminate|].
  split; reflexivity.
Qed.

(** ** Package sizes *)











(** The general part at the description "Milk, 2 Litres" *)
Example package_litres :
  _extract_weight_and_unit (str "Milk, 2 Litres")
    = Some (of_ratio 2 1, str "L").
Proof. vm_compute. reflexivity. Qed.


(** ** Categories *)

Lemma lang_lit_exact : forall s w, lang false (lit s) w -> w = s.
Proof.
  induction s as [|c s IH]; intros w H; simpl in H.
  - exact H.
  - destruct s as [|c' s].
    + destruct H as [x [-> Hx]]. apply cmatch_lit_exact in Hx. congruence.
    + destruct H as (u & v & -> & (x & -> & Hx) & Hv).
      apply cmatch_lit_exact in Hx. subst x.
      rewrite (IH v Hv). reflexivity.
Qed.

Lemma Matches_lit_intro : forall s pv l cs,
  Matches false (lit s) (MState pv (s ++ l) cs)
          (MState (prev_after pv s) l cs).
Proof.
  induction s as [|c s IH]; intros pv l cs.
  - apply M_Emp.
  - destruct s as [|c' s].
    + apply M_Chr. unfold cmatch. apply Ascii.eqb_refl.
    + change (lit (c :: c' :: s)) with (Seq (Chr (CLit c)) (lit (c' :: s))).
      eapply M_Seq.
      * apply M_Chr. unfold cmatch. apply Ascii.eqb_refl.
      * apply (IH (Some c) l cs).
Qed.

Lemma keyword_ok_inv kw :
  keyword_ok kw = true ->
  (forall l, word_opt (hd_error (kw ++ l)) = true) /\
  (forall pv, word_opt (prev_after pv kw) = true).
Proof.
  unfold keyword_ok. intros H. apply andb_true_iff in H.
  destruct H as [H1 H2]. destruct kw as [|c kw]; [discriminate|].
  split; [intros l; exact H1 | intros pv; exact H2].
Qed.

(** The search for [\bkeyword\b] succeeds exactly on the whole-word
    occurrences of the keyword. *)
Lemma keyword_found_iff n kw :
  keyword_ok kw = true ->
  (keyword_found n kw = true <-> occurs_whole kw n).
Proof.
  intros Hok. destruct (keyword_ok_inv kw Hok) as [Hhd Hlast].
  unfold keyword_found, re_search. split.
  - destruct (search_from false (keyword_regex kw) None n)
      as [[pre st]|] eqn:E; [intros _ | discriminate].
    apply search_from_some in E. destruct E as [l' [Hn Hm]].
    apply match_at_sound in Hm.
    change (keyword_regex kw) with (Seq Wordb (Seq (lit kw) Wordb)) in Hm.
    inversion Hm as [| |a b s1 s2 s3 Ha Hb| | | | | | | | | | | |]; subst.
    inversion Ha as [| | | | | | | | | | | |s Hb1| |]; subst.
    inversion Hb as [| |a b s1 s2' s3' Hl Hw| | | | | | | | | | | |]; subst.
    inversion Hw as [| | | | | | | | | | | |s Hb2| |]; subst.
    destruct (Matches_lang _ _ _ _ Hl) as [w [Hr [Lw Pw]]].
    apply lang_lit_exact in Lw. subst w. simpl in Hr, Pw.
    exists pre, (rest st). split; [rewrite Hr; reflexivity|].
    unfold at_boundary in Hb1, Hb2. simpl in Hb1.
    rewrite Hr, Hhd in Hb1. rewrite Pw, Hlast in Hb2.
    split.
    + destruct (word_opt (prev_after None pre)); [discriminate|reflexivity].
    + destruct (word_opt (hd_error (rest st))); [discriminate|reflexivity].
  - intros (pre & suf & -> & Hp & Hs).
    destruct (search_from false (keyword_regex kw) None (pre ++ kw ++ suf))
      eqn:E; [reflexivity|].
    exfalso. revert E. apply search_from_found.
    apply (match_at_complete false _ _ _
             (MState (prev_after (prev_after None pre) kw) suf [])).
    change (keyword_regex kw) with (Seq Wordb (Seq (lit kw) Wordb)).
    eapply M_Seq; [apply M_Wordb | eapply M_Seq].
    + unfold at_boundary. simpl. rewrite Hp, Hhd. reflexivity.
    + apply Matches_lit_intro.
    + apply M_Wordb. unfold at_boundary. simpl. rewrite Hlast, Hs.
      reflexivity.
Qed.

Lemma existsb_keyword n kws :
  forallb keyword_ok kws = true ->
  (existsb (keyword_found n) kws = true <->
   exists kw, In kw kws /\ occurs_whole kw n).
Proof.
  intros Hok. rewrite forallb_forall in Hok. rewrite existsb_exists. split.
  - intros [kw [Hin H]]. exists kw. split; [exact Hin|].
    apply (keyword_found_iff n kw (Hok kw Hin)). exact H.
  - intros [kw [Hin H]]. exists kw. split; [exact Hin|].
    apply (keyword_found_iff n kw (Hok kw Hin)). exact H.
Qed.

(** The scan returns the category of the first entry with a keyword that
    occurs. *)
Lemma infer_in_first n : forall before cat kws after,
  table_ok (before ++ (cat, kws) :: after) = true ->
  (forall c ks k, In (c, ks) before -> In k ks -> ~ occurs_whole k n) ->
  (exists k, In k kws /\ occurs_whole k n) ->
  infer_in (before ++ (cat, kws) :: after) n = cat.
Proof.
  induction before as [|[c ks] before IH]; intros cat kws after Hok Hno Hyes;
    simpl in Hok; apply andb_true_iff in Hok; destruct Hok as [Hk Hok];
    simpl in *.
  - rewrite (proj2 (existsb_keyword n kws Hk) Hyes). reflexivity.
  - destruct (existsb (keyword_found n) ks) eqn:E.
    + apply (existsb_keyword n ks Hk) in E. destruct E as [k [Hin Ho]].
      exfalso. exact (Hno c ks k (or_introl eq_refl) Hin Ho).
    + apply IH; auto. intros c' ks' k Hin. apply (Hno c' ks' k).
      right; exact Hin.
Qed.

Lemma infer_in_none n : forall table,
  table_ok table = true ->
  (forall c ks k, In (c, ks) table -> In k ks -> ~ occurs_whole k n) ->
  infer_in table n = str "other".
Proof.
  induction table as [|[c ks] table IH]; intros Hok Hno; simpl.
  - reflexivity.
  - simpl in Hok. apply andb_true_iff in Hok. destruct Hok as [Hk Hok].
    destruct (existsb (keyword_found n) ks) eqn:E.
    + apply (existsb_keyword n ks Hk) in E. destruct E as [k [Hin Ho]].
      exfalso. exact (Hno c ks k (or_introl eq_refl) Hin Ho).
    + apply IH; auto. intros c' ks' k Hin. apply (Hno c' ks' k).
      right; exact Hin.
Qed.

Lemma none_found_sound table n :
  table_ok table = true -> none_found table n = true ->
  forall c ks k, In (c, ks) table -> In k ks -> ~ occurs_whole k n.
Proof.
  unfold table_ok, none_found. rewrite !forallb_forall.
  intros Hok Hno c ks k Hin Hk Ho.
  specialize (Hok _ Hin). specialize (Hno _ Hin). simpl in Hok, Hno.
  rewrite forallb_forall in Hok, Hno.
  apply (keyword_found_iff n k (Hok k Hk)) in Ho.
  specialize (Hno k Hk). rewrite Ho in Hno. discriminate.
Qed.

Lemma category_keywords_ok : table_ok CATEGORY_KEYWORDS = true.
Proof. vm_compute. reflexivity. Qed.

(** C5: [_infer_category] lower-cases the name and returns the category of
    the first entry of [CATEGORY_KEYWORDS], in declared order, one of whose
    keywords occurs in it as a whole word or phrase, never inside a larger
    word; it returns "other" when no keyword occurs so.  "Pork Loin Chop"
    is classified "pork" through the keyword "pork loin". *)
Theorem category_first_match (name : pystr) :
  (forall before cat kws after,
     CATEGORY_KEYWORDS = before ++ (cat, kws) :: after ->
     (forall c ks k, In (c, ks) before -> In k ks ->
                     ~ occurs_whole k (lower name)) ->
     (exists k, In k kws /\ occurs_whole k (lower name)) ->
     _infer_category name = cat) /\
  ((forall c ks k, In (c, ks) CATEGORY_KEYWORDS -> In k ks ->
                   ~ occurs_whole k (lower name)) ->
   _infer_category name = str "other") /\
  _infer_category (str "Pork Loin Chop") = str "pork" /\
  occurs_whole (str "pork loin") (lower (str "Pork Loin Chop")) /\
  _infer_category (str "Porkchop") = str "other".
Proof.
  split; [|split; [|split; [|split]]].
  - intros before cat kws after E Hno Hyes. unfold _infer_category.
    pose proof category_keywords_ok as Hok. rewrite E in *.
    apply infer_in_first; assumption.
  - intros Hno. unfold _infer_category.
    apply infer_in_none; [exact category_keywords_ok | exact Hno].
  - vm_compute. reflexivity.
  - exists [], (str " chop"). split; [reflexivity|]. split; reflexivity.
  - vm_compute. reflexivity.
Qed.

Lemma category_first_match_witness :
  _infer_category (str "Pork Loin Chop") = str "pork".
Proof.
  apply (proj1 (category_first_match (str "Pork Loin Chop"))
           (firstn 3 CATEGORY_KEYWORDS) (str "pork")
           [str "pork loin"; str "pork"; str "bacon"]
           (skipn 4 CATEGORY_KEYWORDS)).
  - reflexivity.
  - apply none_found_sound; vm_compute; reflexivity.
  - exists (str "pork loin"). split; [left; reflexivity|].
    exists [], (str " chop"). split; [reflexivity|]. split; reflexivity.
Defined.

(** ** Name cleaning *)

Lemma plain_lower c : plain_char (lower_char c) = plain_char c.
Proof. destruct c as [[] [] [] [] [] [] [] []]; reflexivity. Qed.

Lemma plain_upper c : plain_char (upper_char c) = plain_char c.
Proof. destruct c as [[] [] [] [] [] [] [] []]; reflexivity. Qed.

Lemma space_lower c : is_space (lower_char c) = is_space c.
Proof. destruct c as [[] [] [] [] [] [] [] []]; reflexivity. Qed.

Lemma space_upper c : is_space (upper_char c) = is_space c.
Proof. destruct c as [[] [] [] [] [] [] [] []]; reflexivity. Qed.

Lemma alpha_lower c : is_alpha (lower_char c) = is_alpha c.
Proof. destruct c as [[] [] [] [] [] [] [] []]; reflexivity. Qed.

Lemma alpha_upper c : is_alpha (upper_char c) = is_alpha c.
Proof. destruct c as [[] [] [] [] [] [] [] []]; reflexivity. Qed.

Lemma lower_lower c : lower_char (lower_char c) = lower_char c.
Proof. destruct c as [[] [] [] [] [] [] [] []]; reflexivity. Qed.

Lemma upper_upper c : upper_char (upper_char c) = upper_char c.
Proof. destruct c as [[] [] [] [] [] [] [] []]; reflexivity. Qed.

Lemma title_from_In x : forall s b,
  In x (title_from b s) ->
  exists y, In y s /\ (x = lower_char y \/ x = upper_char y).
Proof.
  induction s as [|c s IH]; intros b H; simpl in H; [contradiction|].
  destruct H as [H|H].
  - exists c. split; [left; reflexivity|]. destruct b; auto.
  - destruct (IH _ H) as [y [Hy Hx]]. exists y. split; [right; exact Hy|].
    exact Hx.
Qed.

Lemma title_plain s :
  (forall x, In x s -> plain_char x = true) ->
  forall x, In x (title s) -> plain_char x = true.
Proof.
  intros H x Hx. destruct (title_from_In x s false Hx) as [y [Hy [->| ->]]].
  - rewrite plain_lower. apply H, Hy.
  - rewrite plain_upper. apply H, Hy.
Qed.

Lemma special_match pv c l :
  match_at false SPECIAL_EXPR pv (c :: l) =
  if negb (plain_char c) then Some (MState (Some c) l []) else None.
Proof. reflexivity. Qed.

Lemma length_cons_sub (c : ascii) l : length (c :: l) - length l = 1.
Proof. simpl length. rewrite Nat.sub_succ_l, Nat.sub_diag; auto. Qed.

(** Removing [[^\w\s]] leaves letters, digits, underscores and white
    space. *)
Lemma sub_special_plain x : forall l pv,
  In x (sub_from false SPECIAL_EXPR [] 0 pv l) -> plain_char x = true.
Proof.
  induction l as [|c l IH]; intros pv H.
  - rewrite sub_from_nil in H.
    destruct (match_at false SPECIAL_EXPR pv []); contradiction.
  - rewrite sub_from_cons, special_match in H.
    destruct (plain_char c) eqn:E; simpl negb in H; cbv iota in H.
    + destruct H as [<-|H]; [exact E | exact (IH _ H)].
    + simpl rest in H. rewrite length_cons_sub in H. simpl app in H.
      exact (IH _ H).
Qed.

Lemma clean_plain text x :
  In x (_clean_product_name text) -> plain_char x = true.
Proof.
  unfold _clean_product_name. apply title_plain. clear x.
  intros x Hx. apply strip_In in Hx. unfold re_sub in Hx.
  apply sub_from_In in Hx. destruct Hx as [Hx|Hx].
  - exact (sub_special_plain x _ _ Hx).
  - simpl in Hx. destruct Hx as [<-|[]]. reflexivity.
Qed.

(** C8, as amended: on a description made of the code points 0..127, the
    output of [_clean_product_name] holds no parenthesis and no other
    punctuation: each of its characters is a letter, a digit, an underscore
    or white space. *)
Theorem clean_name_plain (text : pystr) (x : ascii) :
  ascii_only text = true ->
  In x (_clean_product_name text) ->
  (is_word x = true \/ is_space x = true) /\
  x <> "("%char /\ x <> ")"%char.
Proof.
  intros _ H. apply clean_plain in H. split; [|split].
  - unfold plain_char in H. apply orb_true_iff in H. exact H.
  - intros ->. discriminate.
  - intros ->. discriminate.
Qed.

Lemma clean_name_plain_witness :
  (is_word "P" = true \/ is_space "P" = true) /\
  "P"%char <> "("%char /\ "P"%char <> ")"%char.
Proof.
  apply (clean_name_plain (str "Potatoes (white), 1 kilogram") "P").
  - reflexivity.
  - vm_compute. left. reflexivity.
Defined.

(** C8 as stated fails: a digit outside a package size or quantity stays,
    the text of a parenthesis cut by a "per" phrase stays, and a unit noun
    can be formed when punctuation is removed after the unit pass.  (A
    digit can also go without a package size or quantity, inside a
    parenthesis or after a "per": see [digits_removed_otherwise].) *)
Lemma clean_name_keeps_digits :
  _clean_product_name (str "Milk, 2%") = str "Milk 2" /\
  existsb is_digit (_clean_product_name (str "Milk, 2%")) = true /\
  _clean_product_name (str "Eggs (2 per pack)") = str "Eggs 2" /\
  _clean_product_name (str "Uni-t") = str "Unit" /\
  re_search true (UNIT_GARBAGE_at 0) (_clean_product_name (str "Uni-t"))
    <> None.
Proof.
  split; [vm_compute; reflexivity|]. split; [vm_compute; reflexivity|].
  split; [vm_compute; reflexivity|]. split; [vm_compute; reflexivity|].
  vm_compute. discriminate.
Qed.

Example digits_removed_otherwise :
  _clean_product_name (str "Milk (2)") = str "Milk" /\
  _clean_product_name (str "Eggs per 12") = str "Eggs".
Proof. split; vm_compute; reflexivity. Qed.

(** *** Collapsing white space *)

Lemma star_greedy_all ic cl : forall l pv cs,
  exists pv',
    star_greedy ic cl (fun st => Some st) pv l cs =
    Some (MState pv'
            ((fix drop (s : pystr) : pystr :=
                match s with
                | x :: s' => if cmatch ic cl x then drop s' else s
                | [] => []
                end) l) cs).
Proof.
  induction l as [|x l IH]; intros pv cs; simpl.
  - exists pv; reflexivity.
  - destruct (cmatch ic cl x).
    + destruct (IH (Some x) cs) as [pv' ->]. exists pv'; reflexivity.
    + exists pv; reflexivity.
Qed.

Lemma spaces_match_some pv x y l :
  is_space x = true -> is_space y = true ->
  exists st, match_at false SPACES_EXPR pv (x :: y :: l) = Some st /\
             rest st = lstrip l.
Proof.
  intros Hx Hy. unfold match_at.
  change (run false SPACES_EXPR (fun st => Some st)
            (MState pv (x :: y :: l) []))
    with (if is_space x then
            if is_space y then
              star_greedy false CSpace (fun st => Some st) (Some y) l []
            else None
          else None).
  rewrite Hx, Hy.
  destruct (star_greedy_all false CSpace l (Some y) []) as [pv' ->].
  eexists. split; reflexivity.
Qed.

Lemma spaces_match_none pv l :
  match l with
  | x :: y :: _ => is_space x && is_space y = false
  | _ => True
  end ->
  match_at false SPACES_EXPR pv l = None.
Proof.
  destruct l as [|x [|y l]]; intros H; unfold match_at.
  - reflexivity.
  - change (run false SPACES_EXPR (fun st => Some st) (MState pv [x] []))
      with (if is_space x then @None mstate else None).
    destruct (is_space x); reflexivity.
  - change (run false SPACES_EXPR (fun st => Some st)
              (MState pv (x :: y :: l) []))
      with (if is_space x then
              if is_space y then
                star_greedy false CSpace (fun st => Some st) (Some y) l []
              else None
            else None).
    destruct (is_space x); [|reflexivity].
    destruct (is_space y); [discriminate | reflexivity].
Qed.

(** Dropping the rest of a match: [n] characters are skipped. *)
Lemma sub_from_skipn ic r repl : forall n l pv,
  n <= length l ->
  exists pv', sub_from ic r repl n pv l = sub_from ic r repl 0 pv' (skipn n l).
Proof.
  induction n as [|n IH]; intros l pv Hn.
  - exists pv. reflexivity.
  - destruct l as [|c l]; simpl in Hn; [lia|].
    destruct (IH l (Some c) (proj2 (Nat.succ_le_mono _ _) Hn)) as [pv' E].
    exists pv'. rewrite sub_from_skip. exact E.
Qed.

Lemma sub_spaces_two pv x y l :
  is_space x = true -> is_space y = true ->
  exists pv',
    sub_from false SPACES_EXPR (str " ") 0 pv (x :: y :: l) =
    " "%char :: sub_from false SPACES_EXPR (str " ") 0 pv' (lstrip l).
Proof.
  intros Hx Hy.
  destruct (spaces_match_some pv x y l Hx Hy) as [st [Hm Hr]].
  destruct (lstrip_split l) as [p [Hl _]].
  pose proof (f_equal (@length ascii) Hl) as Hlen.
  rewrite length_app in Hlen.
  rewrite sub_from_cons, Hm, Hr.
  assert (E : length (x :: y :: l) - length (lstrip l) = S (S (length p))).
  { simpl length. lia. }
  rewrite E.
  destruct (sub_from_skipn false SPACES_EXPR (str " ") (S (length p))
              (y :: l) (Some x)) as [pv' Hs].
  { simpl length. lia. }
  rewrite Hs. exists pv'. simpl skipn.
  rewrite Hl at 1. rewrite skipn_app, skipn_all, Nat.sub_diag. reflexivity.
Qed.

Lemma adj_ws_cons a l :
  adj_ws (a :: l) =
  match l with
  | b :: _ => (is_space a && is_space b) || adj_ws l
  | [] => false
  end.
Proof. reflexivity. Qed.

(** After the collapse no two white-space characters are adjacent, and a
    text that begins with another character still begins with it. *)
Lemma sub_spaces_shape : forall n l pv,
  length l <= n ->
  adj_ws (sub_from false SPACES_EXPR (str " ") 0 pv l) = false /\
  match l with
  | c :: _ =>
      is_space c = false ->
      exists t, sub_from false SPACES_EXPR (str " ") 0 pv l = c :: t
  | [] => sub_from false SPACES_EXPR (str " ") 0 pv l = []
  end.
Proof.
  induction n as [|n IH]; intros l pv Hn.
  - destruct l; [|simpl in Hn; lia].
    rewrite sub_from_nil, spaces_match_none by exact I. auto.
  - destruct l as [|x [|y l]].
    + rewrite sub_from_nil, spaces_match_none by exact I. auto.
    + rewrite sub_from_cons, spaces_match_none by exact I.
      rewrite sub_from_nil, spaces_match_none by exact I.
      split; [reflexivity|]. intros _. eexists; reflexivity.
    + destruct (is_space x && is_space y) eqn:E.
      * apply andb_true_iff in E. destruct E as [Hx Hy].
        destruct (sub_spaces_two pv x y l Hx Hy) as [pv' ->].
        destruct (lstrip_split l) as [p [Hl _]].
        pose proof (f_equal (@length ascii) Hl) as Hll.
        rewrite length_app in Hll.
        assert (Hlen : length (lstrip l) <= n).
        { simpl in Hn. lia. }
        destruct (IH (lstrip l) pv' Hlen) as [Hadj Hhd].
        split; [|intros Hc; rewrite Hx in Hc; discriminate].
        rewrite adj_ws_cons.
        destruct (lstrip l) as [|c t] eqn:El.
        -- rewrite Hhd. reflexivity.
        -- destruct (Hhd (lstrip_head _ _ _ El)) as [t' Ht].
           rewrite Ht in *. rewrite Hadj.
           rewrite (lstrip_head _ _ _ El), andb_false_r. reflexivity.
      * rewrite sub_from_cons, spaces_match_none by exact E.
        assert (Hlen : length (y :: l) <= n) by (simpl in *; lia).
        destruct (IH (y :: l) (Some x) Hlen) as [Hadj Hhd].
        split; [|intros _; eexists; reflexivity].
        rewrite adj_ws_cons.
        destruct (sub_from false SPACES_EXPR (str " ") 0 (Some x) (y :: l))
          as [|b t] eqn:Eo; [reflexivity|].
        rewrite Hadj, orb_false_r.
        destruct (is_space x) eqn:Hx; [|reflexivity].
        simpl in E. destruct (Hhd E) as [t' Ht]. inversion Ht; subst.
        rewrite E. reflexivity.
Qed.

Lemma sub_spaces_no_adj s :
  adj_ws (re_sub false SPACES_EXPR (str " ") s) = false.
Proof. exact (proj1 (sub_spaces_shape (length s) s None (le_n _))). Qed.

(** *** A cleaned name under a second cleaning *)

Lemma adj_ws_app_r p : forall m, adj_ws (p ++ m) = false -> adj_ws m = false.
Proof.
  induction p as [|a p IH]; intros m H; [exact H|].
  apply IH. change ((a :: p) ++ m) with (a :: (p ++ m)) in H.
  rewrite adj_ws_cons in H. destruct (p ++ m); [reflexivity|].
  apply orb_false_iff in H. exact (proj2 H).
Qed.

Lemma adj_ws_app_l : forall m q, adj_ws (m ++ q) = false -> adj_ws m = false.
Proof.
  induction m as [|a m IH]; intros q H; [reflexivity|].
  change ((a :: m) ++ q) with (a :: (m ++ q)) in H.
  rewrite adj_ws_cons in H. rewrite adj_ws_cons.
  destruct m as [|b m]; [reflexivity|].
  change ((b :: m) ++ q) with (b :: (m ++ q)) in H.
  apply orb_false_iff in H. destruct H as [H1 H2].
  rewrite H1. simpl orb. exact (IH q H2).
Qed.

Lemma strip_no_adj s : adj_ws s = false -> adj_ws (strip s) = false.
Proof.
  intros H. unfold strip.
  destruct (lstrip_split s) as [p [Hs _]].
  destruct (rstrip_split (lstrip s)) as [q [Hq _]].
  rewrite Hs in H. apply adj_ws_app_r in H. rewrite Hq in H.
  exact (adj_ws_app_l _ _ H).
Qed.

Lemma space_title_char (b : bool) c :
  is_space (if b then lower_char c else upper_char c) = is_space c.
Proof. destruct b; [apply space_lower | apply space_upper]. Qed.

Lemma adj_ws_ext : forall s t,
  map is_space s = map is_space t -> adj_ws s = adj_ws t.
Proof.
  induction s as [|a s IH]; intros [|b t] H; try discriminate;
    [reflexivity|].
  injection H as Ha Hs.
  rewrite !adj_ws_cons. rewrite (IH t Hs).
  destruct s as [|a' s], t as [|b' t]; try discriminate; [reflexivity|].
  injection Hs as Ha' _.
  rewrite Ha, Ha'. reflexivity.
Qed.

Lemma title_spaces : forall s b,
  map is_space (title_from b s) = map is_space s.
Proof.
  induction s as [|c s IH]; intros b; [reflexivity|].
  simpl. rewrite space_title_char, IH. reflexivity.
Qed.

Lemma title_no_adj s b : adj_ws (title_from b s) = adj_ws s.
Proof. apply adj_ws_ext, title_spaces. Qed.

Lemma title_from_app : forall u v b,
  exists b', title_from b (u ++ v) = title_from b u ++ title_from b' v.
Proof.
  induction u as [|c u IH]; intros v b; simpl.
  - exists b; reflexivity.
  - destruct (IH v (is_alpha c)) as [b' ->]. exists b'; reflexivity.
Qed.

Lemma title_trimmed s : trimmed s -> trimmed (title s).
Proof.
  intros [H1 H2]. unfold title. split.
  - intros c t E. destruct s as [|d s]; [discriminate|].
    simpl in E. injection E as <- _. rewrite space_upper.
    exact (H1 d s eq_refl).
  - intros t c E.
    destruct (exists_last (l := s)) as [u [d Hs]].
    { intros ->. destruct t; discriminate. }
    subst s. destruct (title_from_app u [d] false) as [b' Et].
    rewrite Et in E. simpl in E. apply app_inj_tail in E.
    destruct E as [_ <-]. rewrite space_title_char.
    exact (H2 u d eq_refl).
Qed.

Lemma title_char_twice (b : bool) c :
  (if b then lower_char (if b then lower_char c else upper_char c)
   else upper_char (if b then lower_char c else upper_char c)) =
  (if b then lower_char c else upper_char c).
Proof. destruct b; [apply lower_lower | apply upper_upper]. Qed.

Lemma alpha_title_char (b : bool) c :
  is_alpha (if b then lower_char c else upper_char c) = is_alpha c.
Proof. destruct b; [apply alpha_lower | apply alpha_upper]. Qed.

(** [title] changes nothing in a title. *)
Lemma title_from_twice : forall s b,
  title_from b (title_from b s) = title_from b s.
Proof.
  induction s as [|c s IH]; intros b; [reflexivity|].
  simpl. rewrite title_char_twice, alpha_title_char, IH. reflexivity.
Qed.

Lemma search_first_char ic cl r : forall l pv,
  (forall x, In x l -> cmatch ic cl x = false) ->
  search_from ic (Seq (Chr cl) r) pv l = None.
Proof.
  induction l as [|c l IH]; intros pv H.
  - reflexivity.
  - assert (E : match_at ic (Seq (Chr cl) r) pv (c :: l) = None).
    { unfold match_at. simpl. rewrite (H c (or_introl eq_refl)).
      reflexivity. }
    simpl search_from. rewrite E, IH; [reflexivity|].
    intros x Hx. apply H. right; exact Hx.
Qed.

Lemma plain_no_paren l pv :
  (forall x, In x l -> plain_char x = true) ->
  search_from false PAREN_EXPR pv l = None.
Proof.
  intros H. apply search_first_char. intros x Hx. specialize (H x Hx).
  change (ch "(") with (CLit "("). unfold cmatch.
  destruct (Ascii.eqb x "(") eqn:E; [|reflexivity].
  apply Ascii.eqb_eq in E. subst x. discriminate.
Qed.

Lemma plain_no_special : forall l pv,
  (forall x, In x l -> plain_char x = true) ->
  search_from false SPECIAL_EXPR pv l = None.
Proof.
  induction l as [|c l IH]; intros pv H.
  - reflexivity.
  - simpl search_from. rewrite special_match, (H c (or_introl eq_refl)).
    simpl negb. cbv iota. rewrite IH; [reflexivity|].
    intros x Hx. apply H. right; exact Hx.
Qed.

Lemma no_adj_no_spaces : forall l pv,
  adj_ws l = false -> search_from false SPACES_EXPR pv l = None.
Proof.
  induction l as [|c l IH]; intros pv H.
  - reflexivity.
  - rewrite adj_ws_cons in H. simpl search_from.
    destruct l as [|d l].
    + rewrite spaces_match_none by exact I.
      simpl. reflexivity.
    + apply orb_false_iff in H. destruct H as [H1 H2].
      rewrite spaces_match_none by exact H1.
      rewrite (IH (Some c) H2). reflexivity.
Qed.

Lemma clean_no_adj text : adj_ws (_clean_product_name text) = false.
Proof.
  unfold _clean_product_name, title. rewrite title_no_adj.
  apply strip_no_adj, sub_spaces_no_adj.
Qed.

Lemma clean_trimmed text : trimmed (_clean_product_name text).
Proof. unfold _clean_product_name. apply title_trimmed, strip_trimmed. Qed.

Lemma clean_title text :
  title (_clean_product_name text) = _clean_product_name text.
Proof. unfold _clean_product_name, title. apply title_from_twice. Qed.

(** C7, as amended: for a description made of the code points 0..127, a
    cleaned name in which no "per" phrase and no package-size, quantity or
    unit-noun match remains is left unchanged by a second cleaning. *)
Theorem clean_name_idempotent_when_clean (text : pystr) :
  ascii_only text = true ->
  re_search true PER_EXPR (_clean_product_name text) = None ->
  re_search true clean_regex (_clean_product_name text) = None ->
  _clean_product_name (_clean_product_name text) = _clean_product_name text.
Proof.
  intros _ Hper Hclean.
  pose proof (clean_plain text) as Hplain.
  pose proof (clean_no_adj text) as Hadj.
  pose proof (clean_trimmed text) as Htrim.
  pose proof (clean_title text) as Htitle.
  set (t := _clean_product_name text) in *.
  unfold _clean_product_name at 1. unfold re_sub.
  rewrite (sub_from_none true PER_EXPR [] t None Hper).
  rewrite (sub_from_none true clean_regex [] t None Hclean).
  rewrite (sub_from_none false PAREN_EXPR [] t None
             (plain_no_paren t None Hplain)).
  rewrite (sub_from_none false SPECIAL_EXPR [] t None
             (plain_no_special t None Hplain)).
  rewrite (sub_from_none false SPACES_EXPR (str " ") t None
             (no_adj_no_spaces t None Hadj)).
  rewrite (strip_id t Htrim). exact Htitle.
Qed.

Lemma clean_name_idempotent_when_clean_witness :
  _clean_product_name (_clean_product_name (str "Potatoes, 1 kilogram"))
  = _clean_product_name (str "Potatoes, 1 kilogram").
Proof.
  apply (clean_name_idempotent_when_clean (str "Potatoes, 1 kilogram"));
    vm_compute; reflexivity.
Defined.

(** C7 as stated fails: cleaning "Flour, 2.5-kg" gives "Flour 25Kg", and
    cleaning that gives "Flour". *)
Lemma clean_name_not_idempotent :
  _clean_product_name (str "Flour, 2.5-kg") = str "Flour 25Kg" /\
  _clean_product_name (_clean_product_name (str "Flour, 2.5-kg"))
    = str "Flour" /\
  _clean_product_name (_clean_product_name (str "Flour, 2.5-kg"))
    <> _clean_product_name (str "Flour, 2.5-kg").
Proof.
  split; [vm_compute; reflexivity|]. split; [vm_compute; reflexivity|].
  vm_compute. discriminate.
Qed.

(** * Further properties of the processor *)

(** ** The extractor on every description *)

Lemma iter_pos_keeps {A} (P : A -> Prop) (f : A -> A) :
  (forall x, P x -> P (f x)) ->
  forall p x, P x -> P (iter_pos f p x).
Proof.
  intros Hf. induction p as [p IH|p IH|]; intros x Hx; simpl.
  - apply IH, IH, Hf, Hx.
  - apply IH, IH, Hx.
  - apply Hf, Hx.
Qed.

Lemma shr_1_nonneg mrs : (0 <= shr_m mrs)%Z -> (0 <= shr_m (shr_1 mrs))%Z.
Proof.
  destruct mrs as [m r s]. simpl.
  destruct m as [|p|p]; [| destruct p | destruct p]; simpl; lia.
Qed.

Lemma shr_fexp_nonneg m e l :
  (0 <= m)%Z -> (0 <= shr_m (fst (shr_fexp prec emax m e l)))%Z.
Proof.
  intros Hm. unfold shr_fexp, shr.
  assert (H0 : (0 <= shr_m (shr_record_of_loc m l))%Z).
  { destruct l as [|[]]; exact Hm. }
  destruct (fexp prec emax (Zdigits2 m + e) - e)%Z as [|p|p]; simpl fst;
    try exact H0.
  apply (iter_pos_keeps (fun x => (0 <= shr_m x)%Z) shr_1 shr_1_nonneg).
  exact H0.
Qed.

Lemma round_nearest_even_nonneg m l :
  (0 <= m)%Z -> (0 <= round_nearest_even m l)%Z.
Proof.
  intros Hm. unfold round_nearest_even.
  destruct l as [|[]]; try destruct (Z.even m); lia.
Qed.

Lemma round_aux_nonneg m e l :
  (0 <= m)%Z -> nonneg (binary_round_aux prec emax false m e l) = true.
Proof.
  intros Hm. unfold binary_round_aux.
  pose proof (shr_fexp_nonneg m e l Hm) as H1.
  destruct (shr_fexp prec emax m e l) as [mrs' e'] eqn:E1. simpl fst in H1.
  pose proof (shr_fexp_nonneg _ e' loc_Exact
                (round_nearest_even_nonneg _ (loc_of_shr_record mrs') H1))
    as H2.
  destruct (shr_fexp prec emax
              (round_nearest_even (shr_m mrs') (loc_of_shr_record mrs'))
              e' loc_Exact) as [mrs'' e''] eqn:E2.
  simpl fst in H2. destruct (shr_m mrs'') as [|p|p].
  - reflexivity.
  - destruct (e'' <=? emax - prec)%Z; reflexivity.
  - lia.
Qed.

Lemma div_core_nonneg m1 e1 m2 e2 :
  (0 < m1)%Z -> (0 < m2)%Z ->
  (0 <= fst (fst (SFdiv_core_binary prec emax m1 e1 m2 e2)))%Z.
Proof.
  intros H1 H2. unfold SFdiv_core_binary.
  set (s := (e1 - e2 -
             Z.min (fexp prec emax (Zdigits2 m1 + e1 - (Zdigits2 m2 + e2)))
                   (e1 - e2))%Z).
  set (m' := match s with
             | Z0 => m1
             | Zpos _ => Z.shiftl m1 s
             | Zneg _ => 0%Z
             end).
  assert (Hm' : (0 <= m')%Z).
  { unfold m'. destruct s; try lia. apply Z.shiftl_nonneg. lia. }
  pose proof (Z.div_pos m' m2 Hm' H2) as Hq. unfold Z.div in Hq.
  destruct (Z.div_eucl m' m2) as [q r]. exact Hq.
Qed.

(** A quotient of a non-negative float by a positive finite one is
    non-negative. *)
Lemma div_nonneg x my ey :
  nonneg x = true -> nonneg (div x (S754_finite false my ey)) = true.
Proof.
  destruct x as [[]|[]| |[] mx ex]; intros H; try discriminate;
    try reflexivity.
  unfold div, SFdiv.
  pose proof (div_core_nonneg (Zpos mx) ex (Zpos my) ey eq_refl eq_refl)
    as Hq.
  destruct (SFdiv_core_binary prec emax (Zpos mx) ex (Zpos my) ey)
    as [[mz ez] lz]. simpl in Hq.
  apply round_aux_nonneg. exact Hq.
Qed.

Lemma of_ratio_nonneg n d : nonneg (of_ratio n d) = true.
Proof.
  unfold of_ratio. destruct n as [|pn|pn]; try reflexivity.
  destruct d as [|pd|pd]; try reflexivity.
  apply (div_nonneg (S754_finite false pn 0) pd 0). reflexivity.
Qed.

Lemma decimal_value_nonneg t v : decimal_value t v -> nonneg v = true.
Proof.
  intros [i [_ [[_ ->]|[f [_ [_ ->]]]]]]; apply of_ratio_nonneg.
Qed.

Lemma nonneg_leb x : nonneg x = true -> leb zero x = true /\ ltb x zero = false.
Proof.
  destruct x as [[]|[]| |[] m e]; intros H; try discriminate;
    split; reflexivity.
Qed.

Lemma package_convert_cases value u :
  In u unit_gram \/ In u unit_millilitre \/ In u unit_litre \/
  In u unit_kilogram ->
  (fst (package_convert value u) = div value (of_Z 1000) \/
   fst (package_convert value u) = value) /\
  (snd (package_convert value u) = str "kg" \/
   snd (package_convert value u) = str "L").
Proof.
  destruct (package_convert_family value u) as (Fg & Fm & Fl & Fk).
  intros [H|[H|[H|H]]];
    [rewrite (Fg H) | rewrite (Fm H) | rewrite (Fl H) | rewrite (Fk H)];
    simpl; auto.
Qed.

(** X1: [_extract_weight_and_unit] returns on every description, with one
    of the three units "kg", "L" and "unit"; the unit is "unit" exactly
    when the description has neither a per-unit phrase nor a package size,
    and the weight is then 1.0. *)
Theorem extract_unit_range (text : pystr) :
  exists w u,
    _extract_weight_and_unit text = Some (w, u) /\
    (u = str "kg" \/ u = str "L" \/ u = str "unit") /\
    (u = str "unit" <->
     re_search true PER_UNIT_EXPR text = None /\
     re_search true PACKAGE_SIZE_EXPR text = None) /\
    (u = str "unit" -> w = one).
Proof.
  destruct (re_search true PER_UNIT_EXPR text) as [m|] eqn:E1.
  - assert (Hs : re_search true PER_UNIT_EXPR text <> None) by congruence.
    destruct (per_unit_branch_taken text Hs) as (m' & g1 & _ & _ & Hr).
    destruct Hr as [[_ Hr]|[_ Hr]]; rewrite Hr; eexists; eexists;
      (split; [reflexivity|]); (split; [auto|]);
      (split; [split; [discriminate | intros [? _]; discriminate]
              | discriminate]).
  - destruct (re_search true PACKAGE_SIZE_EXPR text) as [m|] eqn:E2.
    + destruct (package_branch_match text m E2)
        as (g1 & g3 & v & _ & _ & _ & Hfam & Hres).
      assert (Hx : _extract_weight_and_unit text
                   = Some (package_convert v (lower g3))).
      { unfold _extract_weight_and_unit. rewrite E1. exact Hres. }
      rewrite Hx.
      destruct (package_convert_cases v (lower g3) Hfam) as [_ Hu].
      destruct (package_convert v (lower g3)) as [w u]. simpl in Hu.
      exists w, u. split; [reflexivity|].
      destruct Hu as [-> | ->];
        (split; [auto|]);
        (split; [split; [discriminate | intros [_ ?]; discriminate]
                | discriminate]).
    + exists one, (str "unit"). unfold _extract_weight_and_unit, package_branch.
      rewrite E1, E2. repeat split; auto.
Qed.

(** X2: the weight [_extract_weight_and_unit] returns is never negative and
    never NaN: it is zero, a positive number or plus infinity, so the test
    [product_weight > 0] fails only on a zero weight. *)
Theorem extract_weight_nonneg (text : pystr) (w : float) (u : pystr) :
  _extract_weight_and_unit text = Some (w, u) ->
  nonneg w = true /\ leb zero w = true /\ ltb w zero = false /\
  (gt0 w = false -> w = zero).
Proof.
  intros H.
  assert (Hn : nonneg w = true).
  { unfold _extract_weight_and_unit in H.
    destruct (re_search true PER_UNIT_EXPR text) as [m|] eqn:E1.
    - assert (Hs : re_search true PER_UNIT_EXPR text <> None) by congruence.
      destruct (per_unit_branch_taken text Hs) as (m' & g1 & _ & _ & Hr).
      unfold _extract_weight_and_unit in Hr. rewrite E1 in Hr.
      rewrite H in Hr.
      destruct Hr as [[_ Hr]|[_ Hr]]; inversion Hr; reflexivity.
    - destruct (re_search true PACKAGE_SIZE_EXPR text) as [m|] eqn:E2.
      + destruct (package_branch_match text m E2)
          as (g1 & g3 & v & _ & _ & Hv & Hfam & Hres).
        rewrite H in Hres. inversion Hres as [Hw].
        pose proof (decimal_value_nonneg g1 v Hv) as Hvn.
        destruct (package_convert_cases v (lower g3) Hfam) as [Hf _].
        rewrite <- Hw in Hf. simpl in Hf.
        destruct Hf as [-> | ->]; [|exact Hvn].
        apply (div_nonneg v 8796093022208000 (-43)). exact Hvn.
      + unfold package_branch in H. rewrite E2 in H. inversion H.
        reflexivity. }
  split; [exact Hn|].
  destruct (nonneg_leb w Hn) as [H1 H2]. split; [exact H1|].
  split; [exact H2|].
  destruct w as [[]|[]| |[] m e]; try discriminate; auto.
Qed.

Lemma extract_weight_nonneg_witness :
  nonneg (div (of_ratio 500 1) (of_Z 1000)) = true.
Proof.
  exact (proj1 (extract_weight_nonneg (str "Rice, 500 g")
                  (div (of_ratio 500 1) (of_Z 1000)) (str "kg") eq_refl)).
Defined.

(** ** Dates once formatted *)

Lemma format_date_eq s :
  _format_date s =
  if is_yyyy_mm (strip s) then strip s ++ str "-01" else strip s.
Proof.
  unfold _format_date.
  pose proof (date_match (strip s) (proj2 (strip_trimmed s))) as H.
  destruct (re_match false DATE_EXPR (strip s)); rewrite H; reflexivity.
Qed.

Lemma digit_not_space c : is_digit c = true -> is_space c = false.
Proof. destruct c as [[] [] [] [] [] [] [] []]; vm_compute; congruence. Qed.

Lemma completed_date_shape t :
  is_yyyy_mm t = true ->
  trimmed (t ++ str "-01") /\ is_yyyy_mm (t ++ str "-01") = false.
Proof.
  intros H.
  destruct t as [|y1 [|y2 [|y3 [|y4 [|h [|m1 [|m2 [|x t]]]]]]]];
    try discriminate.
  simpl in H. do 6 (apply andb_true_iff in H; destruct H as [H _]).
  split; [split|reflexivity].
  - intros c t E. inversion E; subst. apply digit_not_space, H.
  - intros t c E.
    change ([y1; y2; y3; y4; h; m1; m2] ++ str "-01")
      with ([y1; y2; y3; y4; h; m1; m2; "-"%char; "0"%char] ++ ["1"%char])
      in E.
    apply app_inj_tail in E. destruct E as [_ <-]. reflexivity.
Qed.

Lemma format_date_shape s :
  trimmed (_format_date s) /\ is_yyyy_mm (_format_date s) = false.
Proof.
  rewrite format_date_eq. destruct (is_yyyy_mm (strip s)) eqn:E.
  - apply completed_date_shape, E.
  - split; [apply strip_trimmed | exact E].
Qed.

(** X3: formatting a date twice gives the same as formatting it once. *)
Theorem format_date_idempotent (date_str : pystr) :
  _format_date (_format_date date_str) = _format_date date_str.
Proof.
  destruct (format_date_shape date_str) as [Ht Hn].
  rewrite (format_date_eq (_format_date date_str)).
  rewrite (strip_id _ Ht), Hn. reflexivity.
Qed.

(** X4: a formatted date has no white space at either end and is never of
    the bare year-month form; when the stripped input is of that form the
    result is ten characters long and ends with "-01". *)
Theorem format_date_never_bare (date_str : pystr) :
  trimmed (_format_date date_str) /\
  is_yyyy_mm (_format_date date_str) = false /\
  (is_yyyy_mm (strip date_str) = true ->
   length (_format_date date_str) = 10 /\
   exists t, _format_date date_str = t ++ str "-01" /\ is_yyyy_mm t = true).
Proof.
  destruct (format_date_shape date_str) as [Ht Hn].
  split; [exact Ht|]. split; [exact Hn|].
  intros H. rewrite format_date_eq, H. split.
  - destruct (strip date_str)
      as [|y1 [|y2 [|y3 [|y4 [|h [|m1 [|m2 [|x t]]]]]]]];
      try discriminate. reflexivity.
  - exists (strip date_str). split; [reflexivity | exact H].
Qed.

Lemma format_date_never_bare_witness :
  length (_format_date (str " 2024-11 ")) = 10.
Proof.
  exact (proj1 (proj2 (proj2 (format_date_never_bare (str " 2024-11 ")))
                  eq_refl)).
Defined.

(** ** Categories, names and locations *)

Lemma infer_in_range n : forall table,
  infer_in table n = str "other" \/ In (infer_in table n) (map fst table).
Proof.
  induction table as [|[c ks] table IH]; simpl.
  - left; reflexivity.
  - destruct (existsb (keyword_found n) ks).
    + right; left; reflexivity.
    + destruct IH as [IH|IH]; [left; exact IH | right; right; exact IH].
Qed.

(** X5: the category of a name is "other" or one of the twenty-two keys of
    [CATEGORY_KEYWORDS]; "other" is not one of the keys. *)
Theorem infer_category_range (name : pystr) :
  (_infer_category name = str "other" \/
   In (_infer_category name) (map fst CATEGORY_KEYWORDS)) /\
  ~ In (str "other") (map fst CATEGORY_KEYWORDS) /\
  length CATEGORY_KEYWORDS = 22.
Proof.
  split; [apply infer_in_range|]. split; [|reflexivity].
  intros H. simpl in H.
  repeat (destruct H as [H|H]; [discriminate|]). exact H.
Qed.

Lemma lower_upper c : lower_char (upper_char c) = lower_char c.
Proof. destruct c as [[] [] [] [] [] [] [] []]; reflexivity. Qed.

Lemma lower_title : forall s b, lower (title_from b s) = lower s.
Proof.
  induction s as [|c s IH]; intros b; [reflexivity|].
  unfold lower in *. simpl. rewrite IH. f_equal.
  destruct b; [apply lower_lower | apply lower_upper].
Qed.

Lemma lower_twice s : lower (lower s) = lower s.
Proof.
  unfold lower. rewrite map_map. apply map_ext. intros c. apply lower_lower.
Qed.

(** X6: on names made of the code points 0..127 the category does not
    depend on letter case: a name, its lower-case form and its title-case
    form get the same category, and so do any two names that differ only in
    case. *)
Theorem infer_category_ignores_case (name other : pystr) :
  ascii_only name = true -> ascii_only other = true ->
  _infer_category (title name) = _infer_category name /\
  _infer_category (lower name) = _infer_category name /\
  (lower name = lower other ->
   _infer_category name = _infer_category other).
Proof.
  intros _ _. unfold _infer_category, title.
  rewrite lower_title, lower_twice. split; [reflexivity|].
  split; [reflexivity|]. intros ->. reflexivity.
Qed.

Lemma infer_category_ignores_case_witness :
  _infer_category (str "GROUND BEEF") = _infer_category (str "ground beef").
Proof.
  apply (proj2 (proj2 (infer_category_ignores_case
                         (str "GROUND BEEF") (str "ground beef")
                         eq_refl eq_refl))).
  reflexivity.
Defined.

(** X7: a cleaned name has no white space at either end and no two
    white-space characters in a row. *)
Theorem clean_name_single_spaced (text : pystr) :
  trimmed (_clean_product_name text) /\
  adj_ws (_clean_product_name text) = false.
Proof. split; [apply clean_trimmed | apply clean_no_adj]. Qed.

Lemma upper_lower_char c : is_upper (lower_char c) = false.
Proof. destruct c as [[] [] [] [] [] [] [] []]; reflexivity. Qed.

Lemma lower_upper_char c : is_lower (upper_char c) = false.
Proof. destruct c as [[] [] [] [] [] [] [] []]; reflexivity. Qed.

Lemma title_from_cased : forall s b, title_cased b (title_from b s) = true.
Proof.
  induction s as [|c s IH]; intros b; [reflexivity|].
  simpl. rewrite alpha_title_char, IH, andb_true_r.
  destruct b; [rewrite upper_lower_char | rewrite lower_upper_char];
    reflexivity.
Qed.

(** X8: the cleaned name of a description made of the code points 0..127
    is in title case: none of its letters that follows a letter is upper
    case, none of its other letters is lower case, and [title] leaves it
    unchanged. *)
Theorem clean_name_title_cased (text : pystr) :
  ascii_only text = true ->
  title_cased false (_clean_product_name text) = true /\
  title (_clean_product_name text) = _clean_product_name text.
Proof.
  intros _. split; [|apply clean_title].
  unfold _clean_product_name, title. apply title_from_cased.
Qed.

Lemma clean_name_title_cased_witness :
  title_cased false (_clean_product_name (str "ground beef, per kilogram"))
    = true /\
  title (_clean_product_name (str "ground beef, per kilogram"))
    = _clean_product_name (str "ground beef, per kilogram").
Proof.
  apply (clean_name_title_cased (str "ground beef, per kilogram")).
  reflexivity.
Defined.

(** X9: a location without a comma is returned whole as the province, with
    an empty city. *)
Theorem parse_location_no_comma (location : pystr) :
  (forall c, In c location -> c <> ","%char) ->
  _parse_location location = ([], location).
Proof.
  intros H. unfold _parse_location.
  rewrite (split_on_nosep _ _ H). reflexivity.
Qed.

Lemma parse_location_no_comma_witness :
  _parse_location (str "Canada") = ([], str "Canada").
Proof.
  apply (parse_location_no_comma (str "Canada")).
  intros c Hc E. subst c. simpl in Hc.
  repeat (destruct Hc as [Hc|Hc]; [discriminate|]). exact Hc.
Defined.

(** X10: for a location with a comma, the city is the stripped text before
    the first comma and the province the stripped text between the first
    comma and the second one, or the end; what follows a second comma is
    ignored. *)
Theorem parse_location_first_two (a b tail : pystr) :
  (forall c, In c a -> c <> ","%char) ->
  (forall c, In c b -> c <> ","%char) ->
  tail = [] \/ (exists c, tail = ","%char :: c) ->
  _parse_location (a ++ ","%char :: b ++ tail) = (strip a, strip b).
Proof.
  intros Ha Hb Ht. unfold _parse_location.
  rewrite (split_on_app _ _ _ Ha).
  destruct Ht as [-> | [c ->]].
  - rewrite app_nil_r, (split_on_nosep _ _ Hb). reflexivity.
  - rewrite (split_on_app _ _ _ Hb). reflexivity.
Qed.

Lemma parse_location_first_two_witness :
  _parse_location (str "Ottawa-Gatineau, Ontario part, Ontario/Quebec")
  = (str "Ottawa-Gatineau", str "Ontario part").
Proof.
  apply (parse_location_first_two (str "Ottawa-Gatineau")
           (str " Ontario part") (str ", Ontario/Quebec")).
  - intros c Hc E. subst c. simpl in Hc.
    repeat (destruct Hc as [Hc|Hc]; [discriminate|]). exact Hc.
  - intros c Hc E. subst c. simpl in Hc.
    repeat (destruct Hc as [Hc|Hc]; [discriminate|]). exact Hc.
  - right. eexists. reflexivity.
Defined.

(** ** Rows and tables *)

Lemma parse_location_trimmed loc :
  trimmed loc ->
  trimmed (fst (_parse_location loc)) /\ trimmed (snd (_parse_location loc)).
Proof.
  intros Hl. unfold _parse_location.
  destruct (split_on "," loc) as [|p0 [|p1 ps]]; simpl.
  - split; [|exact Hl]. split; intros; [discriminate|].
    destruct t; discriminate.
  - split; [|exact Hl]. split; intros; [discriminate|].
    destruct t; discriminate.
  - split; apply strip_trimmed.
Qed.

Lemma location_trimmed g : trimmed (title (strip g)).
Proof. apply title_trimmed, strip_trimmed. Qed.

(** X11: in every row [transform] builds, the location, the city and the
    province have no white space at either end; the city and the province
    are what [_parse_location] gives on the normalized location. *)
Theorem row_location_trimmed (r : RawRow) (row : Row) :
  transform_row r = Some row ->
  trimmed (location row) /\ trimmed (city row) /\ trimmed (province row) /\
  location row = title (strip (GEO r)) /\
  (city row, province row) = _parse_location (location row).
Proof.
  intros H. destruct (transform_row_eq r) as [wu [_ Hrow]].
  rewrite Hrow in H. inversion H; subst row; clear H. simpl.
  pose proof (location_trimmed (GEO r)) as Hl.
  destruct (parse_location_trimmed _ Hl) as [Hc Hp].
  split; [exact Hl|]. split; [exact Hc|]. split; [exact Hp|].
  split; [reflexivity|].
  destruct (_parse_location (title (strip (GEO r)))); reflexivity.
Qed.

Lemma row_location_trimmed_witness :
  exists row,
    transform_row {| REF_DATE := str "2023-01";
                     GEO := str "  st. john's, newfoundland and labrador ";
                     Products := str "Eggs, 1 dozen";
                     VALUE := of_ratio 399 100 |} = Some row /\
    trimmed (city row) /\ trimmed (province row).
Proof.
  destruct (transform_row
              {| REF_DATE := str "2023-01";
                 GEO := str "  st. john's, newfoundland and labrador ";
                 Products := str "Eggs, 1 dozen";
                 VALUE := of_ratio 399 100 |}) as [row|] eqn:E;
    [|vm_compute in E; discriminate].
  exists row. split; [reflexivity|].
  destruct (row_location_trimmed _ row E) as (_ & Hc & Hp & _).
  split; assumption.
Defined.

Lemma is_ascii_lower c : is_ascii (lower_char c) = is_ascii c.
Proof. destruct c as [[] [] [] [] [] [] [] []]; reflexivity. Qed.

Lemma is_ascii_upper c : is_ascii (upper_char c) = is_ascii c.
Proof. destruct c as [[] [] [] [] [] [] [] []]; reflexivity. Qed.

Lemma title_ascii s : ascii_only s = true -> ascii_only (title s) = true.
Proof.
  unfold ascii_only. rewrite !forallb_forall. intros H x Hx.
  apply title_from_In in Hx. destruct Hx as [y [Hy [-> | ->]]].
  - rewrite is_ascii_lower. apply H, Hy.
  - rewrite is_ascii_upper. apply H, Hy.
Qed.

Lemma strip_ascii s : ascii_only s = true -> ascii_only (strip s) = true.
Proof.
  unfold ascii_only. rewrite !forallb_forall. intros H x Hx.
  apply H, strip_In, Hx.
Qed.

(** X12: on a location made of the code points 0..127, the normalization
    ([strip], then [title]) stays within these code points, and applying
    it a second time changes nothing. *)
Theorem location_normalization_idempotent (g : pystr) :
  ascii_only g = true ->
  ascii_only (title (strip g)) = true /\
  title (strip (title (strip g))) = title (strip g).
Proof.
  intros Ha. split; [apply title_ascii, strip_ascii, Ha|].
  rewrite (strip_id _ (location_trimmed g)).
  unfold title. apply title_from_twice.
Qed.

Lemma location_normalization_idempotent_witness :
  title (strip (title (strip (str "  st. john's, newfoundland "))))
  = title (strip (str "  st. john's, newfoundland ")).
Proof.
  apply (location_normalization_idempotent
           (str "  st. john's, newfoundland ") eq_refl).
Defined.

Lemma map_rows_app a : forall r r' b,
  map_rows r (a ++ r' :: b) =
  match map_rows r a, map_rows r' b with
  | Some ra, Some rb => Some (ra ++ rb)
  | _, _ => None
  end.
Proof.
  induction a as [|r1 a IH]; intros r r' b.
  - cbn [app]. rewrite map_rows_cons, map_rows_nil.
    destruct (transform_row r); [|reflexivity].
    destruct (map_rows r' b); reflexivity.
  - cbn [app]. rewrite !map_rows_cons.
    destruct (transform_row r); [|reflexivity].
    rewrite IH. destruct (map_rows r1 a), (map_rows r' b); reflexivity.
Qed.

(** X13: rows are processed independently and in order: for two tables
    that both have rows, the price records of the two put end to end are
    the records of the first followed by the records of the second, and the
    record counts add up. *)
Theorem process_app (a b : list RawRow) :
  a <> [] -> b <> [] ->
  exists da db dab,
    process a = Some da /\ process b = Some db /\
    process (a ++ b) = Some dab /\
    prices dab = prices da ++ prices db /\
    total_records dab = total_records da + total_records db.
Proof.
  intros Ha Hb.
  destruct a as [|r a]; [congruence|]. destruct b as [|r' b]; [congruence|].
  clear Ha Hb.
  destruct (map_rows_spec a r) as [ra [Ha _]].
  destruct (map_rows_spec b r') as [rb [Hb _]].
  unfold process, transform. cbn [app]. rewrite map_rows_app, Ha, Hb.
  eexists; eexists; eexists.
  split; [reflexivity|]. split; [reflexivity|]. split; [reflexivity|].
  unfold create_json_structure. cbn [prices total_records].
  rewrite filter_app, map_app, length_app. split; reflexivity.
Qed.

Lemma process_app_witness :
  exists da db dab,
    process [ {| REF_DATE := str "2023-01"; GEO := str "Canada";
                 Products := str "Eggs, 1 dozen";
                 VALUE := of_ratio 399 100 |} ] = Some da /\
    process [ {| REF_DATE := str "2023-02"; GEO := str "Canada";
                 Products := str "Butter, 500 grams";
                 VALUE := of_Z 2 |} ] = Some db /\
    process [ {| REF_DATE := str "2023-01"; GEO := str "Canada";
                 Products := str "Eggs, 1 dozen";
                 VALUE := of_ratio 399 100 |};
              {| REF_DATE := str "2023-02"; GEO := str "Canada";
                 Products := str "Butter, 500 grams";
                 VALUE := of_Z 2 |} ] = Some dab /\
    prices dab = prices da ++ prices db /\
    total_records dab = total_records da + total_records db.
Proof.
  apply (process_app
           [ {| REF_DATE := str "2023-01"; GEO := str "Canada";
                Products := str "Eggs, 1 dozen";
                VALUE := of_ratio 399 100 |} ]
           [ {| REF_DATE := str "2023-02"; GEO := str "Canada";
                Products := str "Butter, 500 grams";
                VALUE := of_Z 2 |} ]); discriminate.
Defined.

(** ** The summaries *)

Lemma pystr_eqb_eq (a b : pystr) : pystr_eqb a b = true <-> a = b.
Proof.
  unfold pystr_eqb. destruct (list_eq_dec ascii_dec a b); split; congruence.
Qed.

Lemma product_eqb_eq p q : product_eqb p q = true <-> p = q.
Proof.
  unfold product_eqb. rewrite !andb_true_iff, !pystr_eqb_eq.
  destruct p, q; simpl. split.
  - intros [[-> ->] ->]. reflexivity.
  - intros H; inversion H; auto.
Qed.

Lemma location_eqb_eq p q : location_eqb p q = true <-> p = q.
Proof.
  unfold location_eqb. rewrite !andb_true_iff, !pystr_eqb_eq.
  destruct p, q; simpl. split.
  - intros [[-> ->] ->]. reflexivity.
  - intros H; inversion H; auto.
Qed.

Section DropDuplicates.

Variable A : Type.
Variable eqb : A -> A -> bool.
Hypothesis eqb_eq : forall x y, eqb x y = true <-> x = y.

Lemma existsb_eqb x seen : existsb (eqb x) seen = true <-> In x seen.
Proof.
  rewrite existsb_exists. split.
  - intros [y [Hy E]]. apply eqb_eq in E. subst; exact Hy.
  - intros H. exists x. split; [exact H | apply eqb_eq; reflexivity].
Qed.

Lemma drop_from_In x : forall l seen,
  In x (drop_duplicates_from eqb seen l) <-> In x l /\ ~ In x seen.
Proof.
  induction l as [|y l IH]; intros seen; simpl.
  - tauto.
  - destruct (existsb (eqb y) seen) eqn:E.
    + apply existsb_eqb in E. rewrite IH. split.
      * intros [H1 H2]; auto.
      * intros [[->|H1] H2]; [contradiction | auto].
    + assert (Hy : ~ In y seen).
      { intros H. apply existsb_eqb in H. congruence. }
      simpl. rewrite IH. simpl. split.
      * intros [->|[H1 H2]]; auto.
      * intros [[->|H1] H2]; auto.
        destruct (eqb y x) eqn:Eyx.
        -- apply eqb_eq in Eyx. auto.
        -- right. split; [exact H1|]. intros [->|H]; [|contradiction].
           assert (eqb x x = true) by (apply eqb_eq; reflexivity).
           congruence.
Qed.

Lemma drop_from_NoDup : forall l seen,
  NoDup (drop_duplicates_from eqb seen l).
Proof.
  induction l as [|y l IH]; intros seen; simpl.
  - constructor.
  - destruct (existsb (eqb y) seen); [apply IH|].
    constructor; [|apply IH].
    rewrite drop_from_In. simpl. tauto.
Qed.

Lemma drop_from_length : forall l seen,
  length (drop_duplicates_from eqb seen l) <= length l.
Proof.
  induction l as [|y l IH]; intros seen; simpl; [lia|].
  destruct (existsb (eqb y) seen); simpl.
  - specialize (IH seen). lia.
  - specialize (IH (y :: seen)). lia.
Qed.

Lemma drop_duplicates_In x l : In x (drop_duplicates eqb l) <-> In x l.
Proof. unfold drop_duplicates. rewrite drop_from_In. simpl. tauto. Qed.

Lemma drop_duplicates_NoDup l : NoDup (drop_duplicates eqb l).
Proof. apply drop_from_NoDup. Qed.

Lemma drop_duplicates_length l : length (drop_duplicates eqb l) <= length l.
Proof. apply drop_from_length. Qed.

(** A list without repetition is left as it is. *)
Lemma drop_from_NoDup_id : forall l seen,
  NoDup l -> (forall x, In x l -> ~ In x seen) ->
  drop_duplicates_from eqb seen l = l.
Proof.
  induction l as [|y l IH]; intros seen Hn Hs; simpl; [reflexivity|].
  inversion Hn as [|? ? Hy Hl]; subst.
  destruct (existsb (eqb y) seen) eqn:E.
  - apply existsb_eqb in E. exfalso. apply (Hs y); simpl; auto.
  - f_equal. apply IH; [exact Hl|].
    intros x Hx [->|H]; [contradiction|]. apply (Hs x); simpl; auto.
Qed.

(** The number of occurrences of the kept elements adds up to the length
    of the list. *)
Lemma drop_from_count : forall l seen,
  list_sum (map (fun x => length (filter (eqb x) l))
                (drop_duplicates_from eqb seen l)) =
  length (filter (fun x => negb (existsb (eqb x) seen)) l).
Proof.
  assert (Sym : forall x y, eqb x y = eqb y x).
  { intros x y. destruct (eqb x y) eqn:E1, (eqb y x) eqn:E2; auto.
    - apply eqb_eq in E1. subst. rewrite (proj2 (eqb_eq y y) eq_refl) in E2.
      discriminate.
    - apply eqb_eq in E2. subst. rewrite (proj2 (eqb_eq x x) eq_refl) in E1.
      discriminate. }
  assert (Ext : forall (y : A) l (ks : list A),
    (forall c, In c ks -> c <> y) ->
    list_sum (map (fun x => length (filter (eqb x) (y :: l))) ks) =
    list_sum (map (fun x => length (filter (eqb x) l)) ks)).
  { intros y l ks. induction ks as [|k ks IHk]; intros H;
      [reflexivity|].
    cbn [map]. unfold list_sum in *. cbn [fold_right].
    rewrite IHk by (intros c Hc; apply H; simpl; auto).
    f_equal. cbn [filter]. destruct (eqb k y) eqn:E; [|reflexivity].
    apply eqb_eq in E. exfalso. apply (H k); simpl; auto. }
  assert (Split : forall (y : A) l seen,
    existsb (eqb y) seen = false ->
    length (filter (fun x => negb (existsb (eqb x) seen)) l) =
    length (filter (eqb y) l) +
    length (filter (fun x => negb (existsb (eqb x) (y :: seen))) l)).
  { intros y l seen Hy. induction l as [|z l IHl]; [reflexivity|].
    cbn [filter].
    change (existsb (eqb z) (y :: seen))
      with (eqb z y || existsb (eqb z) seen).
    rewrite (Sym z y).
    destruct (eqb y z) eqn:E.
    - apply eqb_eq in E. subst z. rewrite Hy. cbn [negb orb length].
      rewrite IHl. reflexivity.
    - destruct (existsb (eqb z) seen); cbn [negb orb length]; rewrite IHl;
        lia. }
  induction l as [|y l IH]; intros seen; [reflexivity|].
  simpl drop_duplicates_from.
  destruct (existsb (eqb y) seen) eqn:E.
  - rewrite Ext.
    + rewrite IH. cbn [filter]. rewrite E. reflexivity.
    + intros c Hc ->. apply drop_from_In in Hc. apply existsb_eqb in E.
      tauto.
  - cbn [map]. change (list_sum (?a :: ?b)) with (a + list_sum b).
    rewrite Ext.
    + rewrite IH. cbn [filter].
      rewrite (proj2 (eqb_eq y y) eq_refl), E. cbn [negb length].
      rewrite (Split y l seen E). reflexivity.
    + intros c Hc ->. apply drop_from_In in Hc. simpl in Hc. tauto.
Qed.

End DropDuplicates.

Lemma transform_rows df rows :
  transform df = Some rows ->
  forall row, In row rows ->
    exists r, In r df /\ transform_row r = Some row /\
              gt0 (price_per_unit row) = true.
Proof.
  unfold transform. destruct df as [|r0 df0]; [discriminate|].
  destruct (map_rows_spec df0 r0) as [rs [Hrs [_ Hin]]].
  rewrite Hrs. intros H row Hr. inversion H; subst rows; clear H.
  apply filter_In in Hr. destruct Hr as [Hr Hp].
  apply Hin in Hr. destruct Hr as [r [Hr Ht]]. exists r; auto.
Qed.

Lemma transform_length df rows :
  transform df = Some rows -> length rows <= length df.
Proof.
  unfold transform. destruct df as [|r0 df0]; [discriminate|].
  destruct (map_rows_spec df0 r0) as [rs [Hrs [Hlen _]]].
  rewrite Hrs. intros H. inversion H. cbn [length]. rewrite <- Hlen.
  apply filter_length_le.
Qed.

Lemma transform_row_fields r row :
  transform_row r = Some row ->
  product_category row = _infer_category (product_name row) /\
  city row = fst (_parse_location (location row)) /\
  province row = snd (_parse_location (location row)).
Proof.
  intros H. destruct (transform_row_eq r) as [wu [_ Hrow]].
  rewrite Hrow in H. inversion H. simpl. auto.
Qed.

(** X14: the [products] list holds each (name, category, unit) of the table
    once, in the order of first appearance, and nothing else; in the table
    [transform] returns the category of an entry is determined by its name,
    so that two entries with the same name differ in the unit. *)
Theorem products_list_distinct (df : list RawRow) (rows : list Row) :
  transform df = Some rows ->
  NoDup (products_list rows) /\
  (forall p, In p (products_list rows) <->
             exists row, In row rows /\ p = product_record row) /\
  (forall p q, In p (products_list rows) -> In q (products_list rows) ->
     pd_product_name p = pd_product_name q ->
     pd_product_category p = pd_product_category q /\
     (p <> q -> pd_product_unit p <> pd_product_unit q)).
Proof.
  intros Ht. unfold products_list.
  split; [apply drop_duplicates_NoDup, product_eqb_eq|].
  assert (M : forall p,
    In p (drop_duplicates product_eqb (map product_record rows)) <->
    exists row, In row rows /\ p = product_record row).
  { intros p. rewrite (drop_duplicates_In _ _ product_eqb_eq), in_map_iff.
    split; intros [row [H1 H2]]; exists row; auto. }
  split; [exact M|].
  intros p q Hp Hq Hn. apply M in Hp. apply M in Hq.
  destruct Hp as [rp [Hrp ->]]. destruct Hq as [rq [Hrq ->]].
  destruct (transform_rows df rows Ht rp Hrp) as (r1 & _ & T1 & _).
  destruct (transform_rows df rows Ht rq Hrq) as (r2 & _ & T2 & _).
  destruct (transform_row_fields r1 rp T1) as (C1 & _).
  destruct (transform_row_fields r2 rq T2) as (C2 & _).
  simpl in *. assert (Hc : product_category rp = product_category rq).
  { rewrite C1, C2, Hn. reflexivity. }
  split; [exact Hc|]. intros Hne Hu. apply Hne.
  unfold product_record. rewrite Hn, Hc, Hu. reflexivity.
Qed.

Lemma products_list_distinct_witness :
  exists rows,
    transform [ {| REF_DATE := str "2023-01"; GEO := str "Canada";
                   Products := str "Milk, 1 litre";
                   VALUE := of_ratio 3 1 |};
                {| REF_DATE := str "2023-02"; GEO := str "Canada";
                   Products := str "Milk, 2 litres";
                   VALUE := of_ratio 5 1 |} ] = Some rows /\
    NoDup (products_list rows).
Proof.
  destruct (transform
              [ {| REF_DATE := str "2023-01"; GEO := str "Canada";
                   Products := str "Milk, 1 litre";
                   VALUE := of_ratio 3 1 |};
                {| REF_DATE := str "2023-02"; GEO := str "Canada";
                   Products := str "Milk, 2 litres";
                   VALUE := of_ratio 5 1 |} ]) as [rows|] eqn:E;
    [|vm_compute in E; discriminate].
  exists rows. split; [reflexivity|].
  exact (proj1 (products_list_distinct _ rows E)).
Defined.

(** The two rows above give one product. *)
Example products_merged :
  option_map (fun rows => length (products_list rows))
    (transform [ {| REF_DATE := str "2023-01"; GEO := str "Canada";
                    Products := str "Milk, 1 litre";
                    VALUE := of_ratio 3 1 |};
                 {| REF_DATE := str "2023-02"; GEO := str "Canada";
                    Products := str "Milk, 2 litres";
                    VALUE := of_ratio 5 1 |} ]) = Some 1.
Proof. vm_compute. reflexivity. Qed.

(** X15: in the [locations] list of the table [transform] returns, every
    location string occurs once: it is a key that determines the city and
    the province; the list holds the locations of the table and nothing
    else. *)
Theorem locations_list_keyed (df : list RawRow) (rows : list Row) :
  transform df = Some rows ->
  NoDup (map lc_location (locations_list rows)) /\
  (forall row, In row rows -> In (location row)
                                 (map lc_location (locations_list rows))) /\
  (forall l, In l (locations_list rows) ->
     (lc_city l, lc_province l) = _parse_location (lc_location l) /\
     exists row, In row rows /\ l = location_record row).
Proof.
  intros Ht. unfold locations_list.
  assert (M : forall l,
    In l (drop_duplicates location_eqb (map location_record rows)) <->
    exists row, In row rows /\ l = location_record row).
  { intros l. rewrite (drop_duplicates_In _ _ location_eqb_eq), in_map_iff.
    split; intros [row [H1 H2]]; exists row; auto. }
  assert (K : forall l,
    In l (drop_duplicates location_eqb (map location_record rows)) ->
    (lc_city l, lc_province l) = _parse_location (lc_location l)).
  { intros l Hl. apply M in Hl. destruct Hl as [row [Hr ->]].
    destruct (transform_rows df rows Ht row Hr) as (r & _ & T & _).
    destruct (transform_row_fields r row T) as (_ & Hc & Hp).
    simpl. rewrite Hc, Hp.
    destruct (_parse_location (location row)); reflexivity. }
  split; [|split].
  - apply (NoDup_map_NoDup_ForallPairs lc_location).
    + intros p q Hp Hq E. pose proof (K p Hp) as Kp.
      pose proof (K q Hq) as Kq. rewrite E in Kp. rewrite <- Kq in Kp.
      destruct p, q; simpl in *. inversion Kp. subst. reflexivity.
    + apply drop_duplicates_NoDup, location_eqb_eq.
  - intros row Hr. apply in_map_iff. exists (location_record row).
    split; [reflexivity|]. apply M. exists row; auto.
  - intros l Hl. split; [apply K, Hl | apply M, Hl].
Qed.

Lemma locations_list_keyed_witness :
  exists rows,
    transform [ {| REF_DATE := str "2023-01"; GEO := str "toronto, ontario";
                   Products := str "Milk, 1 litre";
                   VALUE := of_ratio 3 1 |};
                {| REF_DATE := str "2023-02"; GEO := str " Toronto, Ontario";
                   Products := str "Eggs, 1 dozen";
                   VALUE := of_ratio 5 1 |} ] = Some rows /\
    NoDup (map lc_location (locations_list rows)).
Proof.
  destruct (transform
              [ {| REF_DATE := str "2023-01"; GEO := str "toronto, ontario";
                   Products := str "Milk, 1 litre";
                   VALUE := of_ratio 3 1 |};
                {| REF_DATE := str "2023-02"; GEO := str " Toronto, Ontario";
                   Products := str "Eggs, 1 dozen";
                   VALUE := of_ratio 5 1 |} ]) as [rows|] eqn:E;
    [|vm_compute in E; discriminate].
  exists rows. split; [reflexivity|].
  exact (proj1 (locations_list_keyed _ rows E)).
Defined.

Lemma insert_desc_perm x : forall l, Permutation (insert_desc x l) (x :: l).
Proof.
  induction l as [|y l IH]; simpl.
  - apply Permutation_refl.
  - destruct (snd y <=? snd x).
    + apply Permutation_refl.
    + apply Permutation_trans with (y :: x :: l).
      * apply perm_skip, IH.
      * apply perm_swap.
Qed.

Lemma sort_desc_perm : forall l, Permutation (sort_desc l) l.
Proof.
  induction l as [|x l IH]; simpl.
  - apply perm_nil.
  - apply Permutation_trans with (x :: sort_desc l).
    + apply insert_desc_perm.
    + apply perm_skip, IH.
Qed.

Lemma insert_desc_sorted x : forall l,
  StronglySorted (fun a b : pystr * nat => snd b <= snd a) l ->
  StronglySorted (fun a b : pystr * nat => snd b <= snd a) (insert_desc x l).
Proof.
  induction l as [|y l IH]; intros H; simpl.
  - constructor; [constructor | constructor].
  - inversion H as [|? ? Hl Hy]; subst.
    destruct (snd y <=? snd x) eqn:E.
    + apply Nat.leb_le in E. constructor; [exact H|].
      constructor; [exact E|].
      rewrite Forall_forall in *. intros z Hz. specialize (Hy z Hz). lia.
    + apply Nat.leb_gt in E. constructor; [apply IH, Hl|].
      rewrite Forall_forall in *. intros z Hz.
      apply (Permutation_in _ (insert_desc_perm x l)) in Hz.
      destruct Hz as [<-|Hz]; [lia | apply Hy, Hz].
Qed.

Lemma sort_desc_sorted : forall l,
  StronglySorted (fun a b : pystr * nat => snd b <= snd a) (sort_desc l).
Proof.
  induction l as [|x l IH]; simpl; [constructor|].
  apply insert_desc_sorted, IH.
Qed.

Lemma pystr_eqb_sym a b : pystr_eqb a b = pystr_eqb b a.
Proof.
  destruct (pystr_eqb a b) eqn:E1, (pystr_eqb b a) eqn:E2; auto.
  - apply pystr_eqb_eq in E1. subst.
    rewrite (proj2 (pystr_eqb_eq b b) eq_refl) in E2. discriminate.
  - apply pystr_eqb_eq in E2. subst.
    rewrite (proj2 (pystr_eqb_eq a a) eq_refl) in E1. discriminate.
Qed.

Lemma category_count_filter df c :
  length (filter (pystr_eqb c) (map product_category df)) =
  category_count df c.
Proof.
  unfold category_count. induction df as [|row df IH]; [reflexivity|].
  cbn [map filter]. rewrite (pystr_eqb_sym (product_category row) c).
  destruct (pystr_eqb c (product_category row)); cbn [length]; rewrite IH;
    reflexivity.
Qed.

Lemma category_count_pos df row :
  In row df -> 1 <= category_count df (product_category row).
Proof.
  unfold category_count. induction df as [|r df IH]; intros H; [contradiction|].
  cbn [filter]. destruct H as [->|H].
  - rewrite (proj2 (pystr_eqb_eq _ _) eq_refl). simpl. lia.
  - destruct (pystr_eqb (product_category r) (product_category row));
      simpl; specialize (IH H); lia.
Qed.

Lemma categories_perm df :
  Permutation (categories df)
    (map (fun cat => (cat, category_count df cat))
         (drop_duplicates pystr_eqb (map product_category df))).
Proof. apply sort_desc_perm. Qed.

Lemma categories_names df :
  Permutation (map fst (categories df))
    (drop_duplicates pystr_eqb (map product_category df)).
Proof.
  eapply Permutation_trans.
  - apply Permutation_map, categories_perm.
  - rewrite map_map. simpl. rewrite map_id. apply Permutation_refl.
Qed.

(** X16: the [categories] list is ordered by descending count; it has one
    entry for each category that occurs in the table, with the number of
    rows of that category, which is at least one; and the counts add up to
    the number of rows. *)
Theorem categories_histogram (df : list Row) :
  StronglySorted (fun a b => snd b <= snd a) (categories df) /\
  NoDup (map fst (categories df)) /\
  (forall cat n, In (cat, n) (categories df) <->
     n = category_count df cat /\
     exists row, In row df /\ product_category row = cat) /\
  (forall cat n, In (cat, n) (categories df) -> 1 <= n) /\
  list_sum (map snd (categories df)) = length df.
Proof.
  assert (M : forall cat n, In (cat, n) (categories df) <->
     n = category_count df cat /\
     exists row, In row df /\ product_category row = cat).
  { intros cat n. split.
    - intros H. apply (Permutation_in _ (categories_perm df)) in H.
      apply in_map_iff in H. destruct H as [c [E H]]. inversion E; subst.
      split; [reflexivity|].
      rewrite (drop_duplicates_In _ _ pystr_eqb_eq) in H.
      apply in_map_iff in H. destruct H as [row [H1 H2]]. exists row; auto.
    - intros [-> [row [Hr <-]]].
      apply (Permutation_in _ (Permutation_sym (categories_perm df))).
      apply in_map_iff. exists (product_category row). split; [reflexivity|].
      rewrite (drop_duplicates_In _ _ pystr_eqb_eq). apply in_map, Hr. }
  split; [apply sort_desc_sorted|]. split; [|split; [exact M|split]].
  - apply (Permutation_NoDup (Permutation_sym (categories_names df))).
    apply drop_duplicates_NoDup, pystr_eqb_eq.
  - intros cat n H. apply M in H. destruct H as [-> [row [Hr <-]]].
    apply category_count_pos, Hr.
  - rewrite (Permutation_list_sum
               (Permutation_map snd (categories_perm df))).
    rewrite map_map. simpl.
    rewrite (map_ext _ (fun x => length (filter (pystr_eqb x)
                                           (map product_category df))))
      by (intros c; symmetry; apply category_count_filter).
    unfold drop_duplicates.
    rewrite (drop_from_count _ _ pystr_eqb_eq).
    rewrite (filter_ext _ (fun _ => true)) by reflexivity.
    rewrite filter_true, length_map. reflexivity.
Qed.

Lemma str_ltb_irrefl : forall a, str_ltb a a = false.
Proof.
  induction a as [|x a IH]; simpl; [reflexivity|].
  rewrite Nat.ltb_irrefl. exact IH.
Qed.

Lemma str_ltb_asym : forall a b, str_ltb a b = true -> str_ltb b a = false.
Proof.
  induction a as [|x a IH]; intros [|y b] H; simpl in *;
    try discriminate; try reflexivity.
  destruct (Nat.ltb_spec (code x) (code y)), (Nat.ltb_spec (code y) (code x));
    try discriminate; try reflexivity; try lia.
  apply IH, H.
Qed.

Lemma str_ltb_cotrans : forall a b c,
  str_ltb a c = true -> str_ltb a b = true \/ str_ltb b c = true.
Proof.
  induction a as [|x a IH]; intros [|y b] [|z c] H; simpl in *;
    try discriminate; auto.
  destruct (Nat.ltb_spec (code x) (code y)); [auto|].
  destruct (Nat.ltb_spec (code y) (code z)); [auto|].
  destruct (Nat.ltb_spec (code x) (code z)); [lia|].
  destruct (Nat.ltb_spec (code z) (code x)); [discriminate|].
  destruct (Nat.ltb_spec (code y) (code x)); [lia|].
  destruct (Nat.ltb_spec (code z) (code y)); [lia|].
  apply IH, H.
Qed.

Lemma str_ltb_chain a b c :
  str_ltb a b = false -> str_ltb b c = false -> str_ltb a c = false.
Proof.
  intros H1 H2. destruct (str_ltb a c) eqn:E; [|reflexivity].
  destruct (str_ltb_cotrans a b c E); congruence.
Qed.

(** The least of a non-empty list of strings *)
Lemma fold_min_spec : forall ds d,
  In (fold_left str_min ds d) (d :: ds) /\
  forall x, In x (d :: ds) -> str_ltb x (fold_left str_min ds d) = false.
Proof.
  induction ds as [|e ds IH]; intros d; simpl.
  - split; [auto|]. intros x [<-|[]]. apply str_ltb_irrefl.
  - destruct (IH (str_min d e)) as [Hin Hmin].
    assert (Hm : str_ltb d (str_min d e) = false /\
                 str_ltb e (str_min d e) = false).
    { unfold str_min. destruct (str_ltb e d) eqn:E.
      - split; [apply str_ltb_asym, E | apply str_ltb_irrefl].
      - split; [apply str_ltb_irrefl | exact E]. }
    pose proof (Hmin (str_min d e) (or_introl eq_refl)) as Hd.
    split.
    + destruct Hin as [Hin|Hin]; [|auto].
      rewrite <- Hin. unfold str_min. destruct (str_ltb e d); auto.
    + intros x [<-|[<-|Hx]].
      * exact (str_ltb_chain _ _ _ (proj1 Hm) Hd).
      * exact (str_ltb_chain _ _ _ (proj2 Hm) Hd).
      * apply Hmin. right; exact Hx.
Qed.

(** The greatest of a non-empty list of strings *)
Lemma fold_max_spec : forall ds d,
  In (fold_left str_max ds d) (d :: ds) /\
  forall x, In x (d :: ds) -> str_ltb (fold_left str_max ds d) x = false.
Proof.
  induction ds as [|e ds IH]; intros d; simpl.
  - split; [auto|]. intros x [<-|[]]. apply str_ltb_irrefl.
  - destruct (IH (str_max d e)) as [Hin Hmax].
    assert (Hm : str_ltb (str_max d e) d = false /\
                 str_ltb (str_max d e) e = false).
    { unfold str_max. destruct (str_ltb d e) eqn:E.
      - split; [apply str_ltb_asym, E | apply str_ltb_irrefl].
      - split; [apply str_ltb_irrefl | exact E]. }
    pose proof (Hmax (str_max d e) (or_introl eq_refl)) as Hd.
    split.
    + destruct Hin as [Hin|Hin]; [|auto].
      rewrite <- Hin. unfold str_max. destruct (str_ltb d e); auto.
    + intros x [<-|[<-|Hx]].
      * exact (str_ltb_chain _ _ _ Hd (proj1 Hm)).
      * exact (str_ltb_chain _ _ _ Hd (proj2 Hm)).
      * apply Hmax. right; exact Hx.
Qed.

(** X17: the date range is undefined exactly on a table without rows;
    otherwise both of its ends are dates of the table, no date of the table
    is below the lower end or above the upper end, and the lower end is not
    above the upper one. *)
Theorem date_range_bounds (df : list Row) :
  (date_range df = None <-> df = []) /\
  (forall lo hi, date_range df = Some (lo, hi) ->
     (exists row, In row df /\ date row = lo) /\
     (exists row, In row df /\ date row = hi) /\
     (forall row, In row df ->
        str_ltb (date row) lo = false /\ str_ltb hi (date row) = false) /\
     str_ltb hi lo = false).
Proof.
  unfold date_range. split.
  - destruct df; simpl; split; intros; try reflexivity; discriminate.
  - intros lo hi H. destruct df as [|r df]; [discriminate|].
    simpl map in H. cbv iota in H. inversion H as [[Hlo Hhi]]. clear H.
    subst lo hi.
    destruct (fold_min_spec (map date df) (date r)) as [Imin Hmin].
    destruct (fold_max_spec (map date df) (date r)) as [Imax Hmax].
    change (date r :: map date df) with (map date (r :: df)) in *.
    assert (B : forall row, In row (r :: df) ->
              str_ltb (date row) (fold_left str_min (map date df) (date r))
                = false /\
              str_ltb (fold_left str_max (map date df) (date r)) (date row)
                = false).
    { intros row Hr. split; [apply Hmin | apply Hmax]; apply in_map, Hr. }
    apply in_map_iff in Imin. destruct Imin as [rmin [Emin Hrmin]].
    apply in_map_iff in Imax. destruct Imax as [rmax [Emax Hrmax]].
    split; [exists rmin; auto|]. split; [exists rmax; auto|].
    split; [exact B|].
    rewrite <- Emin. exact (proj2 (B rmin Hrmin)).
Qed.

Lemma date_range_bounds_witness :
  date_range
      [ {| date := str "2023-03-01"; location := [];
           product_raw := []; product_price := one;
           is_per_unit := false; product_weight := one;
           product_unit := []; product_name := [];
           product_category := []; price_per_unit := one;
           city := []; province := [] |};
        {| date := str "2022-11-01"; location := [];
           product_raw := []; product_price := one;
           is_per_unit := false; product_weight := one;
           product_unit := []; product_name := [];
           product_category := []; price_per_unit := one;
           city := []; province := [] |} ]
    = Some (str "2022-11-01", str "2023-03-01") /\
  str_ltb (str "2023-03-01") (str "2022-11-01") = false.
Proof.
  split; [reflexivity|].
  exact (proj2 (proj2 (proj2 (proj2 (date_range_bounds
      [ {| date := str "2023-03-01"; location := [];
           product_raw := []; product_price := one;
           is_per_unit := false; product_weight := one;
           product_unit := []; product_name := [];
           product_category := []; price_per_unit := one;
           city := []; province := [] |};
        {| date := str "2022-11-01"; location := [];
           product_raw := []; product_price := one;
           is_per_unit := false; product_weight := one;
           product_unit := []; product_name := [];
           product_category := []; price_per_unit := one;
           city := []; province := [] |} ])
    (str "2022-11-01") (str "2023-03-01") eq_refl)))).
Defined.

(** X18: the counts of the metadata are ordered: at most 23 categories, no
    more categories than products, no more products or locations than price
    records, no more price records than rows read; the record count is the
    one of the document, and it is zero exactly when the date range is
    undefined. *)
Theorem metadata_counts (df : list RawRow) (rows : list Row) :
  transform df = Some rows ->
  md_total_categories (metadata rows) <= 23 /\
  md_total_categories (metadata rows) <= md_total_products (metadata rows) /\
  md_total_products (metadata rows) <= md_total_records (metadata rows) /\
  md_total_locations (metadata rows) <= md_total_records (metadata rows) /\
  md_total_records (metadata rows) <= length df /\
  md_total_records (metadata rows)
    = total_records (create_json_structure rows) /\
  (md_total_records (metadata rows) = 0 <->
   md_date_range (metadata rows) = None).
Proof.
  intros Ht. unfold metadata. simpl.
  set (names := drop_duplicates pystr_eqb (map product_category rows)).
  assert (Hlen : length (categories rows) = length names).
  { rewrite (Permutation_length (categories_perm rows)).
    apply length_map. }
  assert (Hnd : NoDup names)
    by (apply drop_duplicates_NoDup, pystr_eqb_eq).
  assert (Hrow : forall c, In c names ->
                 exists row, In row rows /\ product_category row = c).
  { intros c Hc. unfold names in Hc.
    rewrite (drop_duplicates_In _ _ pystr_eqb_eq) in Hc.
    apply in_map_iff in Hc. destruct Hc as [row [H1 H2]]. exists row; auto. }
  rewrite Hlen, !length_map.
  split; [|split; [|split; [|split; [|split; [|split]]]]].
  - change 23 with (length (str "other" :: map fst CATEGORY_KEYWORDS)).
    apply NoDup_incl_length; [exact Hnd|].
    intros c Hc. destruct (Hrow c Hc) as [row [Hr <-]].
    destruct (transform_rows df rows Ht row Hr) as (r & _ & T & _).
    destruct (transform_row_fields r row T) as (-> & _).
    destruct (infer_in_range (lower (product_name row)) CATEGORY_KEYWORDS)
      as [H|H].
    + left. symmetry. exact H.
    + right. exact H.
  - rewrite <- (length_map pd_product_category (products_list rows)).
    apply NoDup_incl_length; [exact Hnd|].
    intros c Hc. destruct (Hrow c Hc) as [row [Hr <-]].
    apply in_map_iff. exists (product_record row). split; [reflexivity|].
    unfold products_list. rewrite (drop_duplicates_In _ _ product_eqb_eq).
    apply in_map, Hr.
  - unfold products_list.
    rewrite <- (length_map product_record rows).
    apply drop_duplicates_length.
  - unfold locations_list.
    rewrite <- (length_map location_record rows).
    apply drop_duplicates_length.
  - apply (transform_length df rows Ht).
  - reflexivity.
  - unfold date_range. destruct rows; simpl; split; intros; try reflexivity;
      discriminate.
Qed.

Lemma metadata_counts_witness :
  exists rows,
    transform [ {| REF_DATE := str "2023-01"; GEO := str "Canada";
                   Products := str "Milk, 1 litre";
                   VALUE := of_ratio 3 1 |};
                {| REF_DATE := str "2023-02"; GEO := str "Canada";
                   Products := str "Chicken breast, per kilogram";
                   VALUE := zero |} ] = Some rows /\
    md_total_categories (metadata rows) <= md_total_products (metadata rows).
Proof.
  destruct (transform
              [ {| REF_DATE := str "2023-01"; GEO := str "Canada";
                   Products := str "Milk, 1 litre";
                   VALUE := of_ratio 3 1 |};
                {| REF_DATE := str "2023-02"; GEO := str "Canada";
                   Products := str "Chicken breast, per kilogram";
                   VALUE := zero |} ]) as [rows|] eqn:E;
    [|vm_compute in E; discriminate].
  exists rows. split; [reflexivity|].
  exact (proj1 (proj2 (metadata_counts _ rows E))).
Defined.

(** ** What the cleaner keeps *)

Lemma match_at_suffix ic r pv l st :
  match_at ic r pv l = Some st -> length (rest st) <= length l.
Proof.
  intros H. apply match_at_sound in H.
  destruct (Matches_lang _ _ _ _ H) as [w [Hw _]]. simpl in Hw.
  rewrite Hw, length_app. lia.
Qed.

(** A substitution whose replacement is no longer than any match does not
    lengthen the text. *)
Lemma sub_from_length ic r repl :
  (forall pv l st, match_at ic r pv l = Some st ->
                   length repl + length (rest st) <= length l) ->
  forall l skip pv,
    length (sub_from ic r repl skip pv l) <= length l - skip.
Proof.
  intros Hm. induction l as [|c l IH]; intros skip pv.
  - destruct skip; [|simpl; lia]. rewrite sub_from_nil.
    destruct (match_at ic r pv []) as [st|] eqn:E; [|simpl; lia].
    specialize (Hm _ _ _ E). cbn [length] in *. lia.
  - destruct skip.
    + rewrite sub_from_cons.
      destruct (match_at ic r pv (c :: l)) as [st|] eqn:E.
      * pose proof (Hm _ _ _ E) as H1.
        pose proof (match_at_suffix _ _ _ _ _ E) as H2.
        rewrite length_app.
        destruct (length (c :: l) - length (rest st)) as [|n] eqn:En.
        -- cbn [length] in *. specialize (IH 0 (Some c)). lia.
        -- specialize (IH n (Some c)). cbn [length] in *. lia.
      * cbn [length]. specialize (IH 0 (Some c)). lia.
    + rewrite sub_from_skip. specialize (IH skip (Some c)).
      cbn [length]. lia.
Qed.

Lemma sub_empty_length ic r s : length (re_sub ic r [] s) <= length s.
Proof.
  unfold re_sub.
  pose proof (sub_from_length ic r []
                (fun pv l st H => match_at_suffix ic r pv l st H) s 0 None).
  lia.
Qed.

Lemma spaces_match_length pv l st :
  match_at false SPACES_EXPR pv l = Some st ->
  length (str " ") + length (rest st) <= length l.
Proof.
  intros H. destruct l as [|x [|y l]].
  - rewrite spaces_match_none in H by exact I. discriminate.
  - rewrite spaces_match_none in H by exact I. discriminate.
  - destruct (is_space x && is_space y) eqn:E.
    + apply andb_true_iff in E. destruct E as [Hx Hy].
      destruct (spaces_match_some pv x y l Hx Hy) as [st' [Hs Hr]].
      rewrite H in Hs. inversion Hs; subst st'. rewrite Hr.
      destruct (lstrip_split l) as [p [Hl _]].
      pose proof (f_equal (@length ascii) Hl) as Hlen.
      rewrite length_app in Hlen. simpl. lia.
    + rewrite spaces_match_none in H by exact E. discriminate.
Qed.

Lemma strip_length s : length (strip s) <= length s.
Proof.
  unfold strip.
  destruct (lstrip_split s) as [p [Hp _]].
  destruct (rstrip_split (lstrip s)) as [q [Hq _]].
  pose proof (f_equal (@length ascii) Hp) as H1.
  pose proof (f_equal (@length ascii) Hq) as H2.
  rewrite length_app in H1, H2. lia.
Qed.

Lemma title_length : forall s b, length (title_from b s) = length s.
Proof. induction s as [|c s IH]; intros b; simpl; [|rewrite IH]; reflexivity. Qed.

Lemma clean_length text :
  length (_clean_product_name text) <= length text.
Proof.
  unfold _clean_product_name, title. rewrite title_length.
  eapply Nat.le_trans; [apply strip_length|].
  eapply Nat.le_trans.
  { unfold re_sub. pose proof (sub_from_length false SPACES_EXPR (str " ")
      spaces_match_length
      (re_sub false SPECIAL_EXPR []
         (re_sub false PAREN_EXPR []
            (re_sub true clean_regex [] (re_sub true PER_EXPR [] text))))
      0 None) as H.
    rewrite Nat.sub_0_r in H. exact H. }
  eapply Nat.le_trans; [apply sub_empty_length|].
  eapply Nat.le_trans; [apply sub_empty_length|].
  eapply Nat.le_trans; [apply sub_empty_length|].
  apply sub_empty_length.
Qed.

Lemma clean_char_origin text x :
  In x (_clean_product_name text) ->
  x = " "%char \/ exists y, In y text /\ lower_char x = lower_char y.
Proof.
  unfold _clean_product_name.
  intros Hx. apply title_from_In in Hx. destruct Hx as [y [Hy Hxy]].
  assert (Hl : lower_char x = lower_char y).
  { destruct Hxy as [-> | ->]; [apply lower_lower | apply lower_upper]. }
  apply strip_In in Hy. unfold re_sub in Hy.
  apply sub_from_In in Hy. destruct Hy as [Hy|Hy].
  - right. exists y. split; [|exact Hl].
    repeat (apply sub_from_In in Hy; destruct Hy as [Hy|[]]). exact Hy.
  - left. simpl in Hy. destruct Hy as [<-|[]].
    destruct Hxy as [-> | ->]; reflexivity.
Qed.

Lemma clean_ascii text :
  ascii_only text = true -> ascii_only (_clean_product_name text) = true.
Proof.
  unfold ascii_only. rewrite !forallb_forall. intros H x Hx.
  destruct (clean_char_origin text x Hx) as [-> | [y [Hy Hl]]];
    [reflexivity|].
  rewrite <- is_ascii_lower, Hl, is_ascii_lower. apply H, Hy.
Qed.

(** X19: on a description made of the code points 0..127, cleaning never
    lengthens the text and invents no character: each character of the
    cleaned name is a space or a character of the description, up to
    letter case; the cleaned name is again made of these code points. *)
Theorem clean_name_from_description (text : pystr) :
  ascii_only text = true ->
  ascii_only (_clean_product_name text) = true /\
  length (_clean_product_name text) <= length text /\
  forall x, In x (_clean_product_name text) ->
    x = " "%char \/
    exists y, In y text /\ lower_char x = lower_char y.
Proof.
  intros Ha. split; [apply clean_ascii, Ha|].
  split; [apply clean_length|]. apply clean_char_origin.
Qed.

Lemma clean_name_from_description_witness :
  "P"%char = " "%char \/
  exists y, In y (str "potatoes, 1 kilogram") /\
            lower_char "P" = lower_char y.
Proof.
  apply (proj2 (proj2 (clean_name_from_description
                         (str "potatoes, 1 kilogram") eq_refl))).
  vm_compute. left. reflexivity.
Defined.

(** ** Price records *)

(** X20: every record of the [prices] list comes from a row of the table
    read and is well formed: its date is the formatted date of the row,
    without white space around it and not a bare year and month; its name
    is the cleaned description, trimmed and single-spaced, and when the
    description is made of the code points 0..127 the name is made of
    letters, digits, underscores and white space and is in title case; its
    category is the one of that name; its unit is "kg", "L" or "unit"; its
    location is the normalized location of the row, and location, city and
    province have no white space around them; its price is above zero. *)
Theorem price_record_well_formed (df : list RawRow) (doc : Document)
    (rec : PriceRecord) :
  process df = Some doc -> In rec (prices doc) ->
  exists r, In r df /\
    pr_date rec = _format_date (REF_DATE r) /\
    pr_product_name rec = _clean_product_name (Products r) /\
    pr_location rec = title (strip (GEO r)) /\
    trimmed (pr_date rec) /\ is_yyyy_mm (pr_date rec) = false /\
    trimmed (pr_product_name rec) /\ adj_ws (pr_product_name rec) = false /\
    (ascii_only (Products r) = true ->
     (forall x, In x (pr_product_name rec) -> plain_char x = true) /\
     title_cased false (pr_product_name rec) = true) /\
    pr_product_category rec = _infer_category (pr_product_name rec) /\
    (pr_product_unit rec = str "kg" \/ pr_product_unit rec = str "L" \/
     pr_product_unit rec = str "unit") /\
    trimmed (pr_location rec) /\ trimmed (pr_city rec) /\
    trimmed (pr_province rec) /\
    (pr_city rec, pr_province rec) = _parse_location (pr_location rec) /\
    gt0 (pr_price_per_unit rec) = true.
Proof.
  unfold process. destruct (transform df) as [rows|] eqn:Ht; [|discriminate].
  intros H Hin. inversion H; subst doc; clear H. simpl in Hin.
  apply in_map_iff in Hin. destruct Hin as [row [<- Hr]].
  destruct (transform_rows df rows Ht row Hr) as (r & Hdf & T & Hp).
  destruct (transform_row_eq r) as [wu [Hwu Hrow]].
  rewrite Hrow in T. inversion T; subst row; clear T. simpl in *.
  destruct (format_date_shape (REF_DATE r)) as [Hd1 Hd2].
  pose proof (location_trimmed (GEO r)) as Hl.
  destruct (parse_location_trimmed _ Hl) as [Hc Hv].
  exists r. split; [exact Hdf|].
  split; [reflexivity|]. split; [reflexivity|]. split; [reflexivity|].
  split; [exact Hd1|]. split; [exact Hd2|].
  split; [apply clean_trimmed|]. split; [apply clean_no_adj|].
  split.
  { intros _. split; [intros x; apply clean_plain|].
    unfold _clean_product_name, title; apply title_from_cased. }
  split; [reflexivity|]. split.
  - destruct (re_search true PER_UNIT_EXPR (Products r)) as [m|] eqn:E1.
    + assert (Hs : re_search true PER_UNIT_EXPR (Products r) <> None)
        by congruence.
      destruct (per_unit_branch_taken _ Hs) as (m' & g1 & _ & _ & Hres).
      rewrite Hwu in Hres.
      destruct Hres as [[_ Hres]|[_ Hres]]; inversion Hres; auto.
    + destruct (re_search true PACKAGE_SIZE_EXPR (Products r))
        as [m|] eqn:E2.
      * destruct (package_branch_match _ m E2)
          as (g1 & g3 & v & _ & _ & _ & Hfam & Hres).
        unfold _extract_weight_and_unit in Hwu. rewrite E1, Hres in Hwu.
        inversion Hwu.
        destruct (package_convert_cases v (lower g3) Hfam) as [_ [H|H]];
          auto.
      * unfold _extract_weight_and_unit, package_branch in Hwu.
        rewrite E1, E2 in Hwu. inversion Hwu. auto.
  - split; [exact Hl|]. split; [exact Hc|]. split; [exact Hv|].
    split; [|exact Hp].
    destruct (_parse_location (title (strip (GEO r)))); reflexivity.
Qed.

Lemma price_record_well_formed_witness :
  exists doc rec,
    process [ {| REF_DATE := str "2023-01"; GEO := str "toronto, ontario";
                 Products := str "Potatoes, 1 kilogram";
                 VALUE := of_ratio 2 1 |} ] = Some doc /\
    In rec (prices doc) /\
    title_cased false (pr_product_name rec) = true /\
    gt0 (pr_price_per_unit rec) = true.
Proof.
  destruct (process
              [ {| REF_DATE := str "2023-01"; GEO := str "toronto, ontario";
                   Products := str "Potatoes, 1 kilogram";
                   VALUE := of_ratio 2 1 |} ]) as [doc|] eqn:E;
    [|vm_compute in E; discriminate].
  assert (Hp : prices doc <> []).
  { intros Hn. vm_compute in E. inversion E; subst doc. discriminate. }
  destruct (prices doc) as [|rec recs] eqn:Ep; [congruence|].
  exists doc, rec. split; [reflexivity|].
  split; [rewrite Ep; left; reflexivity|].
  assert (Hin : In rec (prices doc)) by (rewrite Ep; left; reflexivity).
  destruct (price_record_well_formed _ doc rec E Hin)
    as (r & Hr & _ & _ & _ & _ & _ & _ & _ & Hname & _ & _ & _ & _ & _ & _
        & Hp').
  split; [|exact Hp'].
  destruct Hr as [<-|[]]. exact (proj2 (Hname eq_refl)).
Defined.
